(** * Feeds of archweb: freshness cache, conditional-request values and
      feed item selection ([feeds.py]).

    The module [feeds.py] is embedded as it is written: the two
    [retrieve_*_latest] / [refresh_*_latest] pairs and the two [*_etag]
    functions run in a small state-and-exception monad over a world made of
    the database, the cache, the clock and a log of the calls made to the
    collaborators; [PackageFeed.get_object], [title], [description] and
    [NewsFeed.items] build lazy query sets and strings and are pure. *)

From Stdlib Require Import ZArith Lia.
From stdpp Require Import base option list sorting gmap strings pretty.

Local Open Scope Z_scope.

(** ** Python values and exceptions *)

(** A [datetime] is a point on the time line; Python compares two naive
    datetimes by their position on it.  A [date] is a day number. *)
Definition timestamp := Z.
Definition date := Z.

Inductive model := ArchModel | RepoModel | PackageModel | NewsModel.

Global Instance model_eq_dec : EqDecision model.
Proof. solve_decision. Defined.

Inductive exn :=
  | DoesNotExist (m : model)
  | MultipleObjectsReturned (m : model)
  | KeyError (k : string)
  | AttributeError (a : string).

Inductive result (A : Type) :=
  | Ok (a : A)
  | Raise (e : exn).
Arguments Ok {A} a.
Arguments Raise {A} e.

Global Instance result_ret : MRet result := λ A a, Ok a.
Global Instance result_bind : MBind result := λ A B f r,
  match r with
  | Ok a => f a
  | Raise e => Raise e
  end.

(** [str.lower] as it acts on ASCII text.  The feed takes [lower] as a
    parameter (it is library code, defined on all of Unicode); this
    instance serves the sample data, whose names are ASCII. *)
Definition ascii_lower_char (c : Ascii.ascii) : Ascii.ascii :=
  let n := Ascii.N_of_ascii c in
  if ((65 <=? n) && (n <=? 90))%N then Ascii.ascii_of_N (n + 32) else c.

Fixpoint ascii_lower (s : string) : string :=
  match s with
  | EmptyString => EmptyString
  | String c s' => String (ascii_lower_char c) (ascii_lower s')
  end.

(** ** The models ([main.models], [news.models]) *)

Record Arch := { arch_pk : Z; arch_name : string; agnostic : bool }.
Record Repo := { repo_pk : Z; repo_name : string }.
Record Package := {
  pkg_pk : Z;
  pkgname : string;
  arch : Arch;
  repo : Repo;
  last_update : timestamp
}.
Record User := { user_pk : Z; full_name : string }.
Record News := {
  news_id : Z;
  author : User;
  postdate : date;
  last_modified : timestamp
}.

Record DB := {
  archs : list Arch;
  repos : list Repo;
  packages : list Package;
  news : list News
}.

(** ** Query sets

    A query set is lazy: it records the WHERE conditions, the ORDER BY
    keys and the slice, and touches the table only when it is evaluated. *)

Inductive ordering (A : Type) :=
  | Asc (f : A → Z)
  | Desc (f : A → Z).
Arguments Asc {A} f.
Arguments Desc {A} f.

Record QuerySet (A : Type) := {
  qs_model : model;
  qs_where : list (A → bool);
  qs_order_by : list (ordering A);
  qs_limit : option nat
}.
Arguments qs_model {A} _.
Arguments qs_where {A} _.
Arguments qs_order_by {A} _.
Arguments qs_limit {A} _.

Section queryset.
Context {A : Type}.

Definition sort_key (o : ordering A) (x : A) : Z :=
  match o with
  | Asc f => f x
  | Desc f => - f x
  end.

(** ORDER BY k1, k2, ...: [x] may come before [y]. *)
Fixpoint lex_leb (os : list (ordering A)) (x y : A) : bool :=
  match os with
  | [] => true
  | o :: os' =>
      if sort_key o x <? sort_key o y then true
      else if sort_key o x =? sort_key o y then lex_leb os' x y
      else false
  end.

Definition before (os : list (ordering A)) : relation A :=
  λ x y, Is_true (lex_leb os x y).

Global Instance before_dec os x y : Decision (before os x y).
Proof. unfold before. apply _. Defined.

Definition all_objects (m : model) : QuerySet A :=
  {| qs_model := m; qs_where := []; qs_order_by := []; qs_limit := None |}.

(** [qs.filter(c)] *)
Definition qs_filter (c : A → bool) (qs : QuerySet A) : QuerySet A :=
  {| qs_model := qs_model qs;
     qs_where := qs_where qs ++ [c];
     qs_order_by := qs_order_by qs;
     qs_limit := qs_limit qs |}.

(** [qs.order_by(...)] replaces the ordering. *)
Definition order_by (os : list (ordering A)) (qs : QuerySet A) : QuerySet A :=
  {| qs_model := qs_model qs;
     qs_where := qs_where qs;
     qs_order_by := os;
     qs_limit := qs_limit qs |}.

(** [qs[:n]] on a query set that has no slice yet. *)
Definition slice (n : nat) (qs : QuerySet A) : QuerySet A :=
  {| qs_model := qs_model qs;
     qs_where := qs_where qs;
     qs_order_by := qs_order_by qs;
     qs_limit := Some n |}.

Definition satisfies (cs : list (A → bool)) (x : A) : bool :=
  forallb (λ c, c x) cs.

Definition limit (n : option nat) (l : list A) : list A :=
  match n with
  | Some k => take k l
  | None => l
  end.

(** SELECT ... WHERE ... ORDER BY ... on a table: the rows a query set
    keeps, in order, before the slice. *)
Definition selected (table : list A) (qs : QuerySet A) : list A :=
  merge_sort (before (qs_order_by qs))
    (filter (λ x, Is_true (satisfies (qs_where qs) x)) table).

(** SELECT ... WHERE ... ORDER BY ... LIMIT ... on a table. *)
Definition fetch (table : list A) (qs : QuerySet A) : list A :=
  limit (qs_limit qs) (selected table qs).

(** [qs.get()]: the single row of the query set. *)
Definition get (table : list A) (qs : QuerySet A) : result A :=
  match fetch table qs with
  | [] => Raise (DoesNotExist (qs_model qs))
  | [x] => Ok x
  | _ => Raise (MultipleObjectsReturned (qs_model qs))
  end.

(** [qs.latest(field)]: order by the field descending, keep one row. *)
Definition latest (field : A → Z) (table : list A) (qs : QuerySet A)
  : result A :=
  get table (slice 1 (order_by [Desc field] qs)).
End queryset.

(** [m] is the greatest value of the field [f] over the table. *)
Definition is_latest {A} (f : A → Z) (table : list A) (m : Z) : Prop :=
  (∃ x, x ∈ table ∧ f x = m) ∧ ∀ y, y ∈ table → f y ≤ m.

Definition Arch_objects : QuerySet Arch := all_objects ArchModel.
Definition Repo_objects : QuerySet Repo := all_objects RepoModel.
Definition Package_objects : QuerySet Package := all_objects PackageModel.
Definition News_objects : QuerySet News := all_objects NewsModel.

(** [Q] objects on packages. *)
Inductive Q :=
  | Q_arch (a : Arch)
  | Q_arch__agnostic (b : bool)
  | Q_repo (r : Repo)
  | Q_or (q1 q2 : Q).

Fixpoint Q_matches (q : Q) (p : Package) : bool :=
  match q with
  | Q_arch a => arch_pk (arch p) =? arch_pk a
  | Q_arch__agnostic b => bool_decide (agnostic (arch p) = b)
  | Q_repo r => repo_pk (repo p) =? repo_pk r
  | Q_or q1 q2 => Q_matches q1 p || Q_matches q2 p
  end.

(** ** The world: database, cache, clock, and the calls made so far *)

Inductive call :=
  | CacheGet (k : string)
  | CacheSet (k : string) (v : timestamp) (timeout : Z)
  | Query (m : model).

Record World := {
  db : DB;
  cache : gmap string (timestamp * Z);
  clock : Z;
  log : list call
}.

Definition M (A : Type) : Type := World → result A * World.

Global Instance M_ret : MRet M := λ A a w, (Ok a, w).
Global Instance M_bind : MBind M := λ A B f m w,
  match m w with
  | (Ok a, w') => f a w'
  | (Raise e, w') => (Raise e, w')
  end.

(** [try: body except E.DoesNotExist: handler] *)
Definition try_except_DoesNotExist {A} (m : model) (body handler : M A) : M A :=
  λ w,
    match body w with
    | (Raise (DoesNotExist m'), w') =>
        if decide (m' = m) then handler w' else (Raise (DoesNotExist m'), w')
    | r => r
    end.

Definition logged (c : call) (w : World) : World :=
  {| db := db w; cache := cache w; clock := clock w; log := c :: log w |}.

(** Modelled from the spec: [django.core.cache.cache], the TimestampCache
    of the specification.  [get] returns the value of an entry that is
    present and not expired, [set] overwrites the entry with expiration
    now + ttl. *)
Definition cache_lookup (w : World) (k : string) : option timestamp :=
  match cache w !! k with
  | Some (v, expires) => if clock w <? expires then Some v else None
  | None => None
  end.

Definition cache_get (k : string) : M (option timestamp) :=
  λ w, (Ok (cache_lookup w k), logged (CacheGet k) w).

Definition cache_set (k : string) (v : timestamp) (timeout : Z) : M () :=
  λ w,
    (Ok (),
     {| db := db w;
        cache := <[k := (v, clock w + timeout)]> (cache w);
        clock := clock w;
        log := CacheSet k v timeout :: log w |}).

(** A query sent to the database. *)
Definition query {A} (m : model) (q : DB → result A) : M A :=
  λ w, (q (db w), logged (Query m) w).

(** ** feeds.py *)

Definition CACHE_TIMEOUT : Z := 1800.
Definition CACHE_PACKAGE_KEY : string := "cache_package_latest".
Definition CACHE_NEWS_KEY : string := "cache_news_latest".

(** [if latest:] a datetime is always true, [None] is false. *)
Definition truthy (latest : option timestamp) : bool :=
  match latest with
  | Some _ => true
  | None => false
  end.

(** [Package.objects.values('last_update').latest('last_update')['last_update']] *)
Definition Package_latest_last_update : M timestamp :=
  query PackageModel
    (λ d, row ← latest last_update (packages d) Package_objects;
          mret (last_update row)).

Definition News_latest_last_modified : M timestamp :=
  query NewsModel
    (λ d, row ← latest last_modified (news d) News_objects;
          mret (last_modified row)).

Definition retrieve_package_latest : M (option timestamp) :=
  latest ← cache_get CACHE_PACKAGE_KEY;
  if truthy latest then mret latest
  else
    try_except_DoesNotExist PackageModel
      (latest ← Package_latest_last_update;
       cache_set CACHE_PACKAGE_KEY latest CACHE_TIMEOUT;;
       mret (Some latest))
      (mret None).

Definition refresh_package_latest : M () :=
  latest ← Package_latest_last_update;
  cache_set CACHE_PACKAGE_KEY latest CACHE_TIMEOUT.

Definition retrieve_news_latest : M (option timestamp) :=
  latest ← cache_get CACHE_NEWS_KEY;
  if truthy latest then mret latest
  else
    try_except_DoesNotExist NewsModel
      (latest ← News_latest_last_modified;
       cache_set CACHE_NEWS_KEY latest CACHE_TIMEOUT;;
       mret (Some latest))
      (mret None).

Definition refresh_news_latest : M () :=
  latest ← News_latest_last_modified;
  cache_set CACHE_NEWS_KEY latest CACHE_TIMEOUT.

(** The two trackers are the same code on two keys, models and fields:
    their common shape, to which each of them unfolds. *)
Section tracker.
Context {A : Type}.
Variables (key : string) (m : model) (table : DB → list A) (field : A → Z).

Definition latest_query : M timestamp :=
  query m (λ d, row ← latest field (table d) (all_objects m);
                mret (field row)).

Definition retrieve_latest : M (option timestamp) :=
  latest ← cache_get key;
  if truthy latest then mret latest
  else
    try_except_DoesNotExist m
      (latest ← latest_query;
       cache_set key latest CACHE_TIMEOUT;;
       mret (Some latest))
      (mret None).

Definition refresh_latest : M () :=
  latest ← latest_query;
  cache_set key latest CACHE_TIMEOUT.

(** The cache entry of the tracker, when there is one, holds the
    greatest field of the table. *)
Definition coherent (w : World) : Prop :=
  ∀ v e, cache w !! key = Some (v, e) → is_latest field (table (db w)) v.
End tracker.

(** The conditional-request functions.  [hashlib]'s MD5 and Python's [str]
    on a dict and on a datetime are library code: they are parameters. *)
Section etag.
Variable md5_hexdigest : string → string.
Variable str_kwargs : gmap string string → string.
Variable str_datetime : timestamp → string.

Definition package_etag (kwargs : gmap string string) : M (option string) :=
  latest ← retrieve_package_latest;
  match latest with
  | Some t => mret (Some (md5_hexdigest (str_kwargs kwargs +:+ str_datetime t)))
  | None => mret None
  end.

Definition news_etag (kwargs : gmap string string) : M (option string) :=
  latest ← retrieve_news_latest;
  match latest with
  | Some t => mret (Some (md5_hexdigest (str_datetime t)))
  | None => mret None
  end.
End etag.

Definition package_last_modified : M (option timestamp) :=
  retrieve_package_latest.

Definition news_last_modified : M (option timestamp) :=
  retrieve_news_latest.

(** *** PackageFeed *)

(** The values held by the dict that [get_object] builds. *)
Inductive value :=
  | VArch (a : Arch)
  | VRepo (r : Repo)
  | VQuerySet (qs : QuerySet Package).

(** [obj[k]] *)
Definition getitem (obj : gmap string value) (k : string) : result value :=
  match obj !! k with
  | Some v => Ok v
  | None => Raise (KeyError k)
  end.

(** [k in obj] *)
Definition contains (k : string) (obj : gmap string value) : bool :=
  bool_decide (is_Some (obj !! k)).

(** [v.name] *)
Definition attr_name (v : value) : result string :=
  match v with
  | VArch a => Ok (arch_name a)
  | VRepo r => Ok (repo_name r)
  | VQuerySet _ => Raise (AttributeError "name")
  end.

(** [v.agnostic] *)
Definition attr_agnostic (v : value) : result bool :=
  match v with
  | VArch a => Ok (agnostic a)
  | _ => Raise (AttributeError "agnostic")
  end.

(** [Arch.objects.get(name=arch)], [Repo.objects.get(name=repo)] *)
Definition Arch_objects_get (d : DB) (name : string) : result Arch :=
  get (archs d) (qs_filter (λ a, bool_decide (arch_name a = name)) Arch_objects).

Definition Repo_objects_get (d : DB) (name : string) : result Repo :=
  get (repos d) (qs_filter (λ r, bool_decide (repo_name r = name)) Repo_objects).

(** [select_related] only prefetches the related rows, which the records
    here already hold. *)
Definition get_object (d : DB) (arch repo : string)
  : result (gmap string value) :=
  let obj : gmap string value := ∅ in
  let qs := order_by [Desc last_update] Package_objects in
  '(qs, obj) ←
    (if decide (arch ≠ "") then
       a ← Arch_objects_get d arch;
       mret (qs_filter (Q_matches (Q_or (Q_arch a) (Q_arch__agnostic true))) qs,
             <["arch" := VArch a]> obj)
     else mret (qs, obj));
  '(qs, obj) ←
    (if decide (repo ≠ "") then
       r ← Repo_objects_get d repo;
       mret (qs_filter (Q_matches (Q_repo r)) qs, <["repo" := VRepo r]> obj)
     else mret (qs, obj));
  mret (<["qs" := VQuerySet (slice 50 qs)]> obj).

(** [title] and [description]; [lower] stands for Python's [.lower()]. *)
Definition title (lower : string → string) (obj : gmap string value)
  : result string :=
  let s := "Arch Linux: Recent package updates" in
  if contains "repo" obj then
    a ← getitem obj "arch";
    an ← attr_name a;
    r ← getitem obj "repo";
    rn ← attr_name r;
    mret (s +:+ " (" +:+ an +:+ " [" +:+ lower rn +:+ "])")
  else if contains "arch" obj then
    a ← getitem obj "arch";
    an ← attr_name a;
    mret (s +:+ " (" +:+ an +:+ ")")
  else mret s.

Definition description (lower : string → string) (obj : gmap string value)
  : result string :=
  let s := "Recently updated packages in the Arch Linux package repositories" in
  s ←
    (if contains "arch" obj then
       a ← getitem obj "arch";
       an ← attr_name a;
       let s := s +:+ " for the '" +:+ lower an +:+ "' architecture" in
       a ← getitem obj "arch";
       ag ← attr_agnostic a;
       if negb ag then mret (s +:+ " (including 'any' packages)") else mret s
     else mret s);
  s ←
    (if contains "repo" obj then
       r ← getitem obj "repo";
       rn ← attr_name r;
       mret (s +:+ " in the [" +:+ lower rn +:+ "] repository")
     else mret s);
  mret (s +:+ ".").

Definition items (obj : gmap string value) : result value :=
  getitem obj "qs".

Definition item_pubdate (item : Package) : timestamp := last_update item.

Definition item_categories (item : Package) : string * string :=
  (repo_name (repo item), arch_name (arch item)).

(** The packages a feed shows for [obj]: the query set under ['qs'],
    evaluated when the feed is rendered. *)
Definition package_items (d : DB) (obj : gmap string value)
  : result (list Package) :=
  v ← items obj;
  match v with
  | VQuerySet qs => mret (fetch (packages d) qs)
  | _ => Raise (AttributeError "__iter__")
  end.

(** The query set and the dict that [get_object] builds once the names
    are resolved ([None] for an empty name). *)
Definition arch_condition (a : Arch) : Package → bool :=
  Q_matches (Q_or (Q_arch a) (Q_arch__agnostic true)).

Definition repo_condition (r : Repo) : Package → bool :=
  Q_matches (Q_repo r).

Definition package_query (oa : option Arch) (or : option Repo)
  : QuerySet Package :=
  {| qs_model := PackageModel;
     qs_where := option_list (arch_condition <$> oa)
                 ++ option_list (repo_condition <$> or);
     qs_order_by := [Desc last_update];
     qs_limit := Some 50%nat |}.

Definition package_obj (oa : option Arch) (or : option Repo)
  : gmap string value :=
  let obj : gmap string value := ∅ in
  let obj := match oa with Some a => <["arch" := VArch a]> obj | None => obj end in
  let obj := match or with Some r => <["repo" := VRepo r]> obj | None => obj end in
  <["qs" := VQuerySet (package_query oa or)]> obj.

(** A name given to a feed: [None] when it is empty, else the row that
    the lookup returns. *)
Definition resolve {A} (lookup : string → result A) (name : string)
  : result (option A) :=
  if decide (name ≠ "") then x ← lookup name; mret (Some x) else mret None.

(** The title as the specification words it for a feed of an architecture
    and a repository: both names lowercased. *)
Definition claimed_title (lower : string → string) (a : Arch) (r : Repo)
  : string :=
  "Arch Linux: Recent package updates"
  +:+ " (" +:+ lower (arch_name a) +:+ " [" +:+ lower (repo_name r) +:+ "])".

(** *** NewsFeed *)

Definition NewsFeed_items : QuerySet News :=
  slice 10 (order_by [Desc postdate; Desc news_id] News_objects).

Definition news_items (d : DB) : list News := fetch (news d) NewsFeed_items.

Definition item_author_name (item : News) : string := full_name (author item).

(** *** Signals

    [post_save.connect(refresh_package_latest, sender=Package)] and
    [post_save.connect(refresh_news_latest, sender=News)]. *)
Definition post_save_send (sender : model) : M () :=
  match sender with
  | PackageModel => refresh_package_latest
  | NewsModel => refresh_news_latest
  | _ => mret ()
  end.

(** ** Writes

    Modelled from the spec: a committed write of a record (the [save] of
    the storage layer, an insert or an update of the row with the same
    primary key), after which the write notification runs. *)
Fixpoint upsert {A} (pk : A → Z) (x : A) (table : list A) : list A :=
  match table with
  | [] => [x]
  | y :: table' => if pk y =? pk x then x :: table' else y :: upsert pk x table'
  end.

Definition with_db (f : DB → DB) : M () :=
  λ w, (Ok (), {| db := f (db w); cache := cache w; clock := clock w; log := log w |}).

Definition Package_save (p : Package) : M () :=
  with_db (λ d, {| archs := archs d; repos := repos d;
                   packages := upsert pkg_pk p (packages d); news := news d |});;
  post_save_send PackageModel.

Definition News_save (n : News) : M () :=
  with_db (λ d, {| archs := archs d; repos := repos d;
                   packages := packages d; news := upsert news_id n (news d) |});;
  post_save_send NewsModel.

(** Time passing. *)
Definition tick (dt : Z) : M () :=
  λ w, (Ok (), {| db := db w; cache := cache w; clock := clock w + dt; log := log w |}).

(** What a process does, one event after the other. *)
Inductive event :=
  | SavePackage (p : Package)
  | SaveNews (n : News)
  | Tick (dt : Z)
  | ReadPackageLatest
  | ReadNewsLatest.

Definition step (e : event) : M () :=
  match e with
  | SavePackage p => Package_save p
  | SaveNews n => News_save n
  | Tick dt => tick dt
  | ReadPackageLatest => retrieve_package_latest;; mret ()
  | ReadNewsLatest => retrieve_news_latest;; mret ()
  end.

Fixpoint run (es : list event) : M () :=
  match es with
  | [] => mret ()
  | e :: es' => step e;; run es'
  end.

Definition written_packages (es : list event) : list Package :=
  omap (λ e, match e with SavePackage p => Some p | _ => None end) es.

Definition written_news (es : list event) : list News :=
  omap (λ e, match e with SaveNews n => Some n | _ => None end) es.

(** ** The two tracked collections, under the names of the specification *)

Inductive collection := PackageCollection | NewsCollection.

Definition cache_key (c : collection) : string :=
  match c with
  | PackageCollection => CACHE_PACKAGE_KEY
  | NewsCollection => CACHE_NEWS_KEY
  end.

Definition collection_model (c : collection) : model :=
  match c with
  | PackageCollection => PackageModel
  | NewsCollection => NewsModel
  end.

(** The freshness timestamps of the records of a collection. *)
Definition timestamps (c : collection) (d : DB) : list timestamp :=
  match c with
  | PackageCollection => last_update <$> packages d
  | NewsCollection => last_modified <$> news d
  end.

Definition currentLatest (c : collection) : M (option timestamp) :=
  match c with
  | PackageCollection => retrieve_package_latest
  | NewsCollection => retrieve_news_latest
  end.

Definition onRecordWritten (c : collection) : M () :=
  post_save_send (collection_model c).

Definition computeETag (md5_hexdigest : string → string)
    (str_kwargs : gmap string string → string)
    (str_datetime : timestamp → string)
    (c : collection) (kwargs : gmap string string) : M (option string) :=
  match c with
  | PackageCollection => package_etag md5_hexdigest str_kwargs str_datetime kwargs
  | NewsCollection => news_etag md5_hexdigest str_datetime kwargs
  end.

Definition computeLastModified (c : collection) : M (option timestamp) :=
  match c with
  | PackageCollection => package_last_modified
  | NewsCollection => news_last_modified
  end.

(** The string that [computeETag] hashes when the latest timestamp is [t]. *)
Definition etag_input (str_kwargs : gmap string string → string)
    (str_datetime : timestamp → string)
    (c : collection) (kwargs : gmap string string) (t : timestamp) : string :=
  match c with
  | PackageCollection => str_kwargs kwargs +:+ str_datetime t
  | NewsCollection => str_datetime t
  end.

(** The world after [n] calls of [currentLatest] in a row. *)
Definition after_reads (c : collection) (n : nat) (w : World) : World :=
  Nat.iter n (λ w, (currentLatest c w).2) w.

Abbreviation coherent_packages :=
  (coherent CACHE_PACKAGE_KEY packages last_update).
Abbreviation coherent_news :=
  (coherent CACHE_NEWS_KEY news last_modified).

(** The table that a sequence of committed writes leaves. *)
Definition stored {A} (pk : A → Z) (table : list A) (writes : list A) : list A :=
  foldl (λ t x, upsert pk x t) table writes.

(** No write of the sequence lowers the field [f] of a row that it
    replaces (a row of the same key [pk] present when it is written). *)
Fixpoint never_lowers {A} (pk f : A → Z) (table writes : list A) : Prop :=
  match writes with
  | [] => True
  | x :: writes' =>
      (∀ y, y ∈ table → pk y = pk x → f y ≤ f x) ∧
      never_lowers pk f (upsert pk x table) writes'
  end.

(** ** Sample data *)
Module Sample.
Definition x86 : Arch := {| arch_pk := 1; arch_name := "x86"; agnostic := false |}.
Definition any : Arch := {| arch_pk := 2; arch_name := "any"; agnostic := true |}.
Definition arm : Arch := {| arch_pk := 3; arch_name := "ARM"; agnostic := false |}.
Definition core : Repo := {| repo_pk := 1; repo_name := "Core" |}.
Definition extra : Repo := {| repo_pk := 2; repo_name := "Extra" |}.

Definition P1 : Package :=
  {| pkg_pk := 1; pkgname := "linux"; arch := x86; repo := core;
     last_update := 10 |}.
Definition P2 : Package :=
  {| pkg_pk := 2; pkgname := "filesystem"; arch := any; repo := extra;
     last_update := 30 |}.
Definition P3 : Package :=
  {| pkg_pk := 3; pkgname := "uboot"; arch := arm; repo := core;
     last_update := 20 |}.

(** [P1] written again with an older timestamp. *)
Definition P1_lowered : Package :=
  {| pkg_pk := 1; pkgname := "linux"; arch := x86; repo := core;
     last_update := 5 |}.
Definition P4 : Package :=
  {| pkg_pk := 4; pkgname := "glibc"; arch := x86; repo := core;
     last_update := 50 |}.

Definition alice : User := {| user_pk := 1; full_name := "Alice Doe" |}.
Definition N5 : News :=
  {| news_id := 5; author := alice; postdate := 100; last_modified := 40 |}.
Definition N7 : News :=
  {| news_id := 7; author := alice; postdate := 100; last_modified := 45 |}.

Definition empty_db : DB :=
  {| archs := [x86; any; arm]; repos := [core; extra];
     packages := []; news := [] |}.
Definition full_db : DB :=
  {| archs := [x86; any; arm]; repos := [core; extra];
     packages := [P1; P2; P3]; news := [N5; N7] |}.

(** Sixty packages of one architecture and repository, updated at the
    times 1 to 60. *)
Definition sixty : list Package :=
  (λ i, {| pkg_pk := i; pkgname := "pkg" +:+ pretty i; arch := x86;
           repo := core; last_update := i |}) <$> seqZ 1 60.
Definition big_db : DB :=
  {| archs := [x86; any; arm]; repos := [core; extra];
     packages := sixty; news := [] |}.

Definition world (d : DB) : World :=
  {| db := d; cache := ∅; clock := 0; log := [] |}.

(** Stand-ins for the library functions: a digest without collisions,
    a rendering of the keyword arguments, a rendering of a datetime. *)
Definition digest (s : string) : string := "md5:" +:+ s.
Definition show_kwargs (kwargs : gmap string string) : string :=
  match kwargs !! "arch" with
  | Some a => "{'arch': '" +:+ a +:+ "'}"
  | None => "{}"
  end.
Definition show_datetime (t : timestamp) : string := pretty t.

(** A package written, then updated with a later timestamp. *)
Definition events_with_update : list event :=
  [SavePackage P1_lowered; SaveNews N5; SavePackage P1; Tick 5;
   ReadPackageLatest; SavePackage P2].

Definition events : list event :=
  [SavePackage P1; ReadPackageLatest; SaveNews N5; SavePackage P2;
   Tick 2000; SaveNews N7; SavePackage P3; Tick 5].
End Sample.

(** * Properties *)

(** ** The order of a query set *)

Lemma is_latest_unique {A} (f : A → Z) table m1 m2 :
  is_latest f table m1 → is_latest f table m2 → m1 = m2.
Proof.
  intros [(x1 & Hx1 & <-) Hle1] [(x2 & Hx2 & <-) Hle2].
  specialize (Hle1 _ Hx2). specialize (Hle2 _ Hx1). lia.
Qed.

Lemma is_latest_Permutation {A} (f : A → Z) l1 l2 m :
  l1 ≡ₚ l2 → is_latest f l1 m → is_latest f l2 m.
Proof.
  intros Hp [(x & Hx & Hm) Hle]. split.
  - exists x. by rewrite <- Hp.
  - intros y Hy. apply Hle. by rewrite Hp.
Qed.

Section order.
Context {A : Type}.
Implicit Types (os : list (ordering A)) (x y z : A).
Implicit Types (table : list A) (qs : QuerySet A).

Lemma lex_leb_total os x y : lex_leb os x y = true ∨ lex_leb os y x = true.
Proof.
  induction os as [|o os IH]; simpl; [by left|].
  destruct (Z.ltb_spec (sort_key o x) (sort_key o y)); [by left|].
  destruct (Z.ltb_spec (sort_key o y) (sort_key o x)); [by right|].
  destruct (Z.eqb_spec (sort_key o x) (sort_key o y)) as [->|]; [|lia].
  by rewrite Z.eqb_refl.
Qed.

Lemma lex_leb_trans os x y z :
  lex_leb os x y = true → lex_leb os y z = true → lex_leb os x z = true.
Proof.
  induction os as [|o os IH]; simpl; [done|].
  destruct (Z.ltb_spec (sort_key o x) (sort_key o y)),
           (Z.ltb_spec (sort_key o y) (sort_key o z)),
           (Z.ltb_spec (sort_key o x) (sort_key o z));
    destruct (Z.eqb_spec (sort_key o x) (sort_key o y)),
             (Z.eqb_spec (sort_key o y) (sort_key o z)),
             (Z.eqb_spec (sort_key o x) (sort_key o z));
    try done; try lia; auto.
Qed.

Global Instance before_total os : Total (before os).
Proof.
  intros x y. unfold before.
  destruct (lex_leb_total os x y) as [->| ->]; simpl; auto.
Qed.

Global Instance before_trans os : Transitive (before os).
Proof.
  intros x y z. unfold before. rewrite !Is_true_true. apply lex_leb_trans.
Qed.

(** What ORDER BY -f means for two rows. *)
Lemma before_desc (f : A → Z) x y : before [Desc f] x y ↔ f y ≤ f x.
Proof.
  unfold before. simpl.
  destruct (Z.ltb_spec (- f x) (- f y)), (Z.eqb_spec (- f x) (- f y));
    simpl; intuition lia.
Qed.

(** ORDER BY -f, -g: greater [f] first, and among equal [f] greater [g]. *)
Lemma before_desc_desc (f g : A → Z) x y :
  before [Desc f; Desc g] x y ↔ f y < f x ∨ (f y = f x ∧ g y ≤ g x).
Proof.
  unfold before. simpl.
  destruct (Z.ltb_spec (- f x) (- f y)), (Z.eqb_spec (- f x) (- f y)),
           (Z.ltb_spec (- g x) (- g y)), (Z.eqb_spec (- g x) (- g y));
    simpl; intuition lia.
Qed.

Lemma selected_sorted table qs :
  StronglySorted (before (qs_order_by qs)) (selected table qs).
Proof. apply (StronglySorted_merge_sort _). Qed.

Lemma selected_Permutation table qs :
  selected table qs ≡ₚ filter (λ x, Is_true (satisfies (qs_where qs) x)) table.
Proof. apply merge_sort_Permutation. Qed.

Lemma elem_of_selected table qs x :
  x ∈ selected table qs ↔ x ∈ table ∧ ∀ c, c ∈ qs_where qs → c x = true.
Proof.
  rewrite selected_Permutation, list_elem_of_filter. unfold satisfies.
  rewrite Is_true_true, forallb_forall.
  setoid_rewrite <- list_elem_of_In. tauto.
Qed.

Lemma selected_no_where table qs :
  qs_where qs = [] → selected table qs ≡ₚ table.
Proof.
  intros Hw. rewrite selected_Permutation, Hw.
  induction table as [|x table IH]; [done|].
  rewrite filter_cons_True by done. by f_equiv.
Qed.

(** [latest] on an unfiltered query set: the row with the greatest field,
    or [DoesNotExist] on an empty table. *)
Lemma latest_nil (f : A → Z) m :
  latest f [] (all_objects m) = Raise (DoesNotExist m).
Proof. done. Qed.

Lemma latest_Ok (f : A → Z) table m :
  table ≠ [] →
  ∃ x, latest f table (all_objects m) = Ok x ∧ is_latest f table (f x).
Proof.
  intros Hne. unfold latest, get, fetch.
  set (qs := slice 1 (order_by [Desc f] (all_objects m))).
  pose proof (selected_sorted table qs) as Hs.
  pose proof (selected_no_where table qs eq_refl) as Hp.
  destruct (selected table qs) as [|x l] eqn:Hsel.
  { apply Permutation_nil_l in Hp. congruence. }
  exists x. split; [by destruct l|].
  apply (is_latest_Permutation _ (x :: l)); [done|].
  apply StronglySorted_inv in Hs as [_ Hall]. split.
  - exists x. split; [left|done].
  - intros y [->|Hy]%elem_of_cons; [lia|].
    rewrite Forall_forall in Hall. by apply before_desc, Hall.
Qed.
End order.

(** ** The trackers *)

Lemma retrieve_package_latest_shape :
  retrieve_package_latest
  = retrieve_latest CACHE_PACKAGE_KEY PackageModel packages last_update.
Proof. reflexivity. Qed.

Lemma refresh_package_latest_shape :
  refresh_package_latest
  = refresh_latest CACHE_PACKAGE_KEY PackageModel packages last_update.
Proof. reflexivity. Qed.

Lemma retrieve_news_latest_shape :
  retrieve_news_latest
  = retrieve_latest CACHE_NEWS_KEY NewsModel news last_modified.
Proof. reflexivity. Qed.

Lemma refresh_news_latest_shape :
  refresh_news_latest
  = refresh_latest CACHE_NEWS_KEY NewsModel news last_modified.
Proof. reflexivity. Qed.

(** The world after [cache.set(key, v, CACHE_TIMEOUT)]. *)
Lemma cache_set_world key v w :
  cache_set key v CACHE_TIMEOUT w
  = (Ok (),
     {| db := db w;
        cache := <[key := (v, clock w + 1800)]> (cache w);
        clock := clock w;
        log := CacheSet key v 1800 :: log w |}).
Proof. done. Qed.

Lemma cache_lookup_Some w k v :
  cache_lookup w k = Some v ↔ ∃ e, cache w !! k = Some (v, e) ∧ clock w < e.
Proof.
  unfold cache_lookup. destruct (cache w !! k) as [[v' e]|].
  2: { split; [done|]. by intros (e & [=] & _). }
  destruct (Z.ltb_spec (clock w) e) as [Hlt|Hge].
  - split; [intros [= ->]; eauto|]. by intros (e' & [= -> ->] & _).
  - split; [done|]. intros (e' & [= -> ->] & Hlt). lia.
Qed.

Lemma cache_lookup_None w k :
  cache_lookup w k = None ↔
  cache w !! k = None ∨ ∃ v e, cache w !! k = Some (v, e) ∧ e ≤ clock w.
Proof.
  unfold cache_lookup. destruct (cache w !! k) as [[v' e]|]; [|tauto].
  destruct (Z.ltb_spec (clock w) e) as [Hlt|Hge].
  - split; [done|]. intros [[=]|(v & e' & [= -> ->] & Hge)]. lia.
  - split; [|done]. intros _. right. eauto.
Qed.

Section tracker_facts.
Context {A : Type}.
Variables (key : string) (m : model) (table : DB → list A) (field : A → Z).

Local Abbreviation latest_query := (latest_query m table field).
Local Abbreviation retrieve_latest := (retrieve_latest key m table field).
Local Abbreviation refresh_latest := (refresh_latest key m table field).
Local Abbreviation coherent := (coherent key table field).

Lemma latest_query_nil w :
  table (db w) = [] →
  latest_query w = (Raise (DoesNotExist m), logged (Query m) w).
Proof. intros Hnil. unfold latest_query, query. by rewrite Hnil. Qed.

Lemma latest_query_Ok w :
  table (db w) ≠ [] →
  ∃ v, is_latest field (table (db w)) v ∧
       latest_query w = (Ok v, logged (Query m) w).
Proof.
  intros Hne. destruct (latest_Ok field _ m Hne) as (x & Hx & Hv).
  exists (field x). split; [done|].
  unfold latest_query, query. by rewrite Hx.
Qed.

(** A read served by the cache: one [get], nothing else. *)
Lemma retrieve_latest_hit w v :
  cache_lookup w key = Some v →
  retrieve_latest w = (Ok (Some v), logged (CacheGet key) w).
Proof.
  intros Hhit. unfold retrieve_latest, cache_get, mbind, M_bind.
  by rewrite Hhit.
Qed.

(** A miss on an empty table: the query, no [set], [None]. *)
Lemma retrieve_latest_miss_nil w :
  cache_lookup w key = None → table (db w) = [] →
  retrieve_latest w
  = (Ok None, logged (Query m) (logged (CacheGet key) w)).
Proof.
  intros Hmiss Hnil.
  unfold retrieve_latest, cache_get, mbind, M_bind, try_except_DoesNotExist.
  rewrite Hmiss. cbn [truthy].
  rewrite (latest_query_nil (logged (CacheGet key) w)) by done.
  by rewrite decide_True.
Qed.

(** A miss on a table with rows: the query, then the [set]. *)
Lemma retrieve_latest_miss_Ok w :
  cache_lookup w key = None → table (db w) ≠ [] →
  ∃ v, is_latest field (table (db w)) v ∧
       retrieve_latest w
       = (Ok (Some v),
          {| db := db w;
             cache := <[key := (v, clock w + 1800)]> (cache w);
             clock := clock w;
             log := CacheSet key v 1800 :: Query m :: CacheGet key :: log w |}).
Proof.
  intros Hmiss Hne.
  destruct (latest_query_Ok (logged (CacheGet key) w) Hne) as (v & Hv & Hq).
  exists v. split; [done|].
  unfold retrieve_latest, cache_get, mbind, M_bind, try_except_DoesNotExist.
  rewrite Hmiss. cbn [truthy]. by rewrite Hq.
Qed.

(** The write notification: the query, then the [set]; no [get]. *)
Lemma refresh_latest_Ok w :
  table (db w) ≠ [] →
  ∃ v, is_latest field (table (db w)) v ∧
       refresh_latest w
       = (Ok (),
          {| db := db w;
             cache := <[key := (v, clock w + 1800)]> (cache w);
             clock := clock w;
             log := CacheSet key v 1800 :: Query m :: log w |}).
Proof.
  intros Hne. destruct (latest_query_Ok w Hne) as (v & Hv & Hq).
  exists v. split; [done|].
  unfold refresh_latest, mbind, M_bind. by rewrite Hq.
Qed.

Lemma refresh_latest_nil w :
  table (db w) = [] →
  refresh_latest w = (Raise (DoesNotExist m), logged (Query m) w).
Proof.
  intros Hnil. unfold refresh_latest, mbind, M_bind.
  by rewrite latest_query_nil.
Qed.

(** A read never fails, keeps the database and the clock, keeps a
    coherent cache coherent, and on a coherent cache over a table with
    rows answers the greatest field. *)
Lemma retrieve_latest_total w :
  ∃ r w', retrieve_latest w = (Ok r, w') ∧ db w' = db w ∧ clock w' = clock w ∧
          (∀ k, k ≠ key → cache w' !! k = cache w !! k) ∧
          (coherent w → coherent w') ∧
          (coherent w → table (db w) ≠ [] →
           ∃ v, r = Some v ∧ is_latest field (table (db w)) v).
Proof.
  destruct (cache_lookup w key) as [v|] eqn:Hc.
  - exists (Some v), (logged (CacheGet key) w).
    split; [by apply retrieve_latest_hit|]. split_and!; try done.
    intros Hcoh _. exists v. split; [done|].
    apply cache_lookup_Some in Hc as (e & He & _). by eapply Hcoh.
  - destruct (table (db w)) as [|x l] eqn:Htable.
    + exists None, (logged (Query m) (logged (CacheGet key) w)).
      split; [by apply retrieve_latest_miss_nil|]. by split_and!.
    + destruct (retrieve_latest_miss_Ok w Hc) as (v & Hv & ->);
        [by rewrite Htable|].
      rewrite Htable in Hv.
      eexists _, _. split; [done|]. simpl. split_and!; try done.
      * intros k Hk. by rewrite lookup_insert_ne.
      * intros _ v' e'. simpl. rewrite lookup_insert_eq, Htable.
        by intros [= <- <-].
      * intros _ _. by exists v.
Qed.
End tracker_facts.

(** ** Writes and the write notification *)

Lemma upsert_not_nil {A} (pk : A → Z) x table : upsert pk x table ≠ [].
Proof. destruct table as [|y table]; simpl; [done|]. by case_match. Qed.

Lemma upsert_fresh {A} (pk : A → Z) x table :
  pk x ∉ pk <$> table → upsert pk x table = table ++ [x].
Proof.
  induction table as [|y table IH]; simpl; [done|].
  rewrite not_elem_of_cons. intros [Hne Hnotin].
  destruct (Z.eqb_spec (pk y) (pk x)); [congruence|]. by rewrite IH.
Qed.

Lemma stored_snoc {A} (pk : A → Z) table writes x :
  stored pk table (writes ++ [x]) = upsert pk x (stored pk table writes).
Proof. unfold stored. by rewrite foldl_app. Qed.

(** A sequence of inserts (no key written twice) leaves the written
    records themselves. *)
Lemma stored_inserts {A} (pk : A → Z) writes :
  NoDup (pk <$> writes) → stored pk [] writes = writes.
Proof.
  induction writes as [|x writes IH] using rev_ind; [done|].
  rewrite fmap_app, NoDup_app. intros (Hnd & Hdisj & _).
  rewrite stored_snoc, IH by done. apply upsert_fresh.
  intros Hin. apply (Hdisj _ Hin). simpl. left.
Qed.

Lemma stored_not_nil {A} (pk : A → Z) table writes :
  writes ≠ [] → stored pk table writes ≠ [].
Proof.
  destruct writes as [|x writes _] using rev_ind; [done|]. intros _.
  rewrite stored_snoc. apply upsert_not_nil.
Qed.

Lemma keys_distinct : CACHE_PACKAGE_KEY ≠ CACHE_NEWS_KEY.
Proof. done. Qed.

(** A saved package: the table takes the row, the package entry of the
    cache becomes coherent, the news side is left as it was. *)
Lemma Package_save_effect p w :
  ∃ w', Package_save p w = (Ok (), w') ∧
        packages (db w') = upsert pkg_pk p (packages (db w)) ∧
        news (db w') = news (db w) ∧
        coherent_packages w' ∧
        (coherent_news w → coherent_news w').
Proof.
  unfold Package_save, with_db, post_save_send.
  unfold mbind at 1. unfold M_bind.
  rewrite refresh_package_latest_shape.
  match goal with |- context [refresh_latest _ _ _ _ ?w0] =>
    destruct (refresh_latest_Ok CACHE_PACKAGE_KEY PackageModel packages
                last_update w0) as (v & Hv & ->)
  end; [apply upsert_not_nil|].
  eexists. split; [done|]. simpl in *. split_and!; try done.
  - intros v' e'. simpl. rewrite lookup_insert_eq. by intros [= <- <-].
  - intros Hcoh v' e'. simpl. rewrite lookup_insert_ne by done. apply Hcoh.
Qed.

Lemma News_save_effect n w :
  ∃ w', News_save n w = (Ok (), w') ∧
        packages (db w') = packages (db w) ∧
        news (db w') = upsert news_id n (news (db w)) ∧
        (coherent_packages w → coherent_packages w') ∧
        coherent_news w'.
Proof.
  unfold News_save, with_db, post_save_send.
  unfold mbind at 1. unfold M_bind.
  rewrite refresh_news_latest_shape.
  match goal with |- context [refresh_latest _ _ _ _ ?w0] =>
    destruct (refresh_latest_Ok CACHE_NEWS_KEY NewsModel news
                last_modified w0) as (v & Hv & ->)
  end; [apply upsert_not_nil|].
  eexists. split; [done|]. simpl in *. split_and!; try done.
  - intros Hcoh v' e'. simpl. rewrite lookup_insert_ne by done. apply Hcoh.
  - intros v' e'. simpl. rewrite lookup_insert_eq. by intros [= <- <-].
Qed.

(** One event: it never fails, the tables take the written row, and a
    write makes its side of the cache coherent; every other event keeps
    it coherent. *)
Lemma step_effect e w :
  ∃ w', step e w = (Ok (), w') ∧
        packages (db w')
        = stored pkg_pk (packages (db w)) (written_packages [e]) ∧
        news (db w') = stored news_id (news (db w)) (written_news [e]) ∧
        (coherent_packages w ∨ written_packages [e] ≠ [] →
         coherent_packages w') ∧
        (coherent_news w ∨ written_news [e] ≠ [] → coherent_news w').
Proof.
  destruct e as [p|n|dt| |]; simpl.
  - destruct (Package_save_effect p w) as (w' & -> & Hp & Hn & Hcp & Hcn).
    exists w'. split_and!; try done. intros [?|?]; [auto|done].
  - destruct (News_save_effect n w) as (w' & -> & Hp & Hn & Hcp & Hcn).
    exists w'. split_and!; try done. intros [?|?]; [auto|done].
  - eexists. split; [done|]. simpl. split_and!; try done; by intros [?|?].
  - destruct (retrieve_latest_total CACHE_PACKAGE_KEY PackageModel packages
                last_update w) as (r & w' & Hr & Hdb & _ & Hother & Hcoh & _).
    rewrite retrieve_package_latest_shape.
    unfold mbind, M_bind. rewrite Hr. exists w'. rewrite Hdb.
    split_and!; try done.
    + intros [?|?]; [auto|done].
    + intros [Hc|?]; [|done]. intros v e. rewrite Hother by done.
      rewrite Hdb. apply Hc.
  - destruct (retrieve_latest_total CACHE_NEWS_KEY NewsModel news
                last_modified w) as (r & w' & Hr & Hdb & _ & Hother & Hcoh & _).
    rewrite retrieve_news_latest_shape.
    unfold mbind, M_bind. rewrite Hr. exists w'. rewrite Hdb.
    split_and!; try done.
    + intros [Hc|?]; [|done]. intros v e. rewrite Hother by done.
      rewrite Hdb. apply Hc.
    + intros [?|?]; [auto|done].
Qed.

Lemma written_packages_cons e es :
  written_packages (e :: es) = written_packages [e] ++ written_packages es.
Proof. by destruct e. Qed.

Lemma written_news_cons e es :
  written_news (e :: es) = written_news [e] ++ written_news es.
Proof. by destruct e. Qed.

Lemma stored_app {A} (pk : A → Z) table ws1 ws2 :
  stored pk table (ws1 ++ ws2) = stored pk (stored pk table ws1) ws2.
Proof. unfold stored. by rewrite foldl_app. Qed.

Lemma run_effect es w :
  ∃ w', run es w = (Ok (), w') ∧
        packages (db w')
        = stored pkg_pk (packages (db w)) (written_packages es) ∧
        news (db w') = stored news_id (news (db w)) (written_news es) ∧
        (coherent_packages w ∨ written_packages es ≠ [] →
         coherent_packages w') ∧
        (coherent_news w ∨ written_news es ≠ [] → coherent_news w').
Proof.
  revert w. induction es as [|e es IH]; intros w.
  { exists w. split_and!; try done; by intros [?|?]. }
  destruct (step_effect e w) as (w1 & Hstep & Hp1 & Hn1 & Hcp1 & Hcn1).
  destruct (IH w1) as (w2 & Hrun & Hp2 & Hn2 & Hcp2 & Hcn2).
  exists w2. split_and!.
  - simpl. unfold mbind, M_bind. by rewrite Hstep.
  - by rewrite written_packages_cons, stored_app, <- Hp1.
  - by rewrite written_news_cons, stored_app, <- Hn1.
  - rewrite written_packages_cons. intros [Hc|Hw]; apply Hcp2.
    + left. apply Hcp1. by left.
    + destruct (written_packages [e]) eqn:He.
      * right. by rewrite app_nil_l in Hw.
      * left. apply Hcp1. by right.
  - rewrite written_news_cons. intros [Hc|Hw]; apply Hcn2.
    + left. apply Hcn1. by left.
    + destruct (written_news [e]) eqn:He.
      * right. by rewrite app_nil_l in Hw.
      * left. apply Hcn1. by right.
Qed.

(** Rows of a table after a write, and after a sequence of writes. *)
Lemma elem_of_upsert {A} (pk : A → Z) x table y :
  y ∈ upsert pk x table → y = x ∨ y ∈ table.
Proof.
  induction table as [|z table IH]; simpl.
  - intros ->%list_elem_of_singleton. by left.
  - destruct (pk z =? pk x).
    + intros [->|Hy]%elem_of_cons; [by left|]. right. by right.
    + intros [->|Hy]%elem_of_cons; [right; left|].
      destruct (IH Hy) as [->|?]; [by left|]. right. by right.
Qed.

Lemma elem_of_upsert_new {A} (pk : A → Z) x table : x ∈ upsert pk x table.
Proof.
  induction table as [|z table IH]; simpl; [left|].
  destruct (pk z =? pk x); [left|by right].
Qed.

Lemma elem_of_stored {A} (pk : A → Z) table writes z :
  z ∈ stored pk table writes → z ∈ table ++ writes.
Proof.
  revert table. induction writes as [|x writes IH]; intros table; simpl.
  - by rewrite app_nil_r.
  - intros Hz%IH. rewrite elem_of_app in Hz. rewrite elem_of_app, elem_of_cons.
    destruct Hz as [Hz%elem_of_upsert|Hz]; tauto.
Qed.

(** A write that does not lower the row it replaces leaves, for each row
    of the table, a row that is at least as recent. *)
Lemma upsert_dominates {A} (pk f : A → Z) x table y :
  (∀ z, z ∈ table → pk z = pk x → f z ≤ f x) →
  y ∈ table → ∃ y', y' ∈ upsert pk x table ∧ f y ≤ f y'.
Proof.
  induction table as [|z table IH]; intros Hlow Hy; [by apply elem_of_nil in Hy|].
  simpl. destruct (Z.eqb_spec (pk z) (pk x)) as [Hpk|Hpk].
  - apply elem_of_cons in Hy as [->|Hy].
    + exists x. split; [left|]. apply Hlow; [left|done].
    + exists y. split; [by right|lia].
  - apply elem_of_cons in Hy as [->|Hy].
    + exists z. split; [left|lia].
    + destruct IH as (y' & Hy' & Hle); [|done|].
      { intros z' Hz'. apply Hlow. by right. }
      exists y'. split; [by right|done].
Qed.

Lemma stored_dominates {A} (pk f : A → Z) table writes z :
  never_lowers pk f table writes → z ∈ table ++ writes →
  ∃ z', z' ∈ stored pk table writes ∧ f z ≤ f z'.
Proof.
  revert table z. induction writes as [|x writes IH]; intros table z; simpl.
  - rewrite app_nil_r. intros _ Hz. exists z. split; [done|lia].
  - intros [Hlow Hrest] Hz.
    assert (∃ z1, z1 ∈ upsert pk x table ++ writes ∧ f z ≤ f z1)
      as (z1 & Hz1 & Hle1).
    { rewrite elem_of_app, elem_of_cons in Hz.
      destruct Hz as [Hz|[->|Hz]].
      - destruct (upsert_dominates pk f x table z Hlow Hz) as (y' & Hy' & Hle).
        exists y'. split; [|done]. apply elem_of_app. by left.
      - exists x. split; [|lia]. apply elem_of_app. left.
        apply elem_of_upsert_new.
      - exists z. split; [|lia]. apply elem_of_app. by right. }
    destruct (IH _ z1 Hrest Hz1) as (z' & Hz' & Hle).
    exists z'. split; [done|lia].
Qed.

(** When no write lowers the row it replaces, the greatest field of the
    rows as they stand is the greatest field ever written. *)
Lemma is_latest_stored_written {A} (pk f : A → Z) writes m :
  never_lowers pk f [] writes →
  is_latest f (stored pk [] writes) m → is_latest f writes m.
Proof.
  intros Hlow [(x & Hx & Hm) Hle]. split.
  - exists x. split; [|done]. by apply elem_of_stored in Hx.
  - intros y Hy.
    destruct (stored_dominates pk f [] writes y Hlow) as (y' & Hy' & Hle');
      [done|]. specialize (Hle y' Hy'). lia.
Qed.

(** C1 as stated fails: a package written with the timestamp 10 and
    written again, under the same key, with the timestamp 5.  The read
    that follows returns 5, below the timestamp of a record written
    before, and not the maximum written so far. *)
Lemma latest_below_a_written_record :
  let es := [SavePackage Sample.P1; SavePackage Sample.P1_lowered] in
  ∃ w w',
    run es (Sample.world Sample.empty_db) = (Ok (), w) ∧
    retrieve_package_latest w = (Ok (Some 5), w') ∧
    Sample.P1 ∈ written_packages es ∧ 5 < last_update Sample.P1 ∧
    ¬ is_latest last_update (written_packages es) 5.
Proof.
  eexists _, _. split_and!; [reflexivity|reflexivity|left|done|].
  intros [_ Hle]. specialize (Hle Sample.P1 (list_elem_of_here _ _)).
  simpl in Hle. lia.
Qed.

(** C1, amended. Starting from empty collections, after any sequence of
    events in which every committed write (an insert, or an update that
    replaces the record of the same key) is followed by its write
    notification, reads and the passing of time interleaved at will, the
    run does not fail and, once a package (a news item) has been written,
    a call of [retrieve_package_latest] ([retrieve_news_latest]) returns
    the greatest [last_update] ([last_modified]) of the records of the
    collection as they stand, hence at least that of each of them.  When
    no write lowers the timestamp of the record it replaces, and so when
    all the writes are inserts, the value returned is at least the
    timestamp of every record written so far and is the maximum written so
    far. *)
Theorem latest_after_writes (es : list event) (w0 : World) :
  packages (db w0) = [] → news (db w0) = [] →
  ∃ w, run es w0 = (Ok (), w) ∧
    packages (db w) = stored pkg_pk [] (written_packages es) ∧
    news (db w) = stored news_id [] (written_news es) ∧
    (written_packages es ≠ [] →
     ∃ v w', retrieve_package_latest w = (Ok (Some v), w') ∧
       is_latest last_update (packages (db w)) v ∧
       (never_lowers pkg_pk last_update [] (written_packages es) →
        is_latest last_update (written_packages es) v) ∧
       (NoDup (pkg_pk <$> written_packages es) →
        is_latest last_update (written_packages es) v)) ∧
    (written_news es ≠ [] →
     ∃ v w', retrieve_news_latest w = (Ok (Some v), w') ∧
       is_latest last_modified (news (db w)) v ∧
       (never_lowers news_id last_modified [] (written_news es) →
        is_latest last_modified (written_news es) v) ∧
       (NoDup (news_id <$> written_news es) →
        is_latest last_modified (written_news es) v)).
Proof.
  intros Hp0 Hn0.
  destruct (run_effect es w0) as (w & Hrun & Hp & Hn & Hcp & Hcn).
  rewrite Hp0 in Hp. rewrite Hn0 in Hn.
  exists w. split_and!; try done.
  - intros Hw.
    destruct (retrieve_latest_total CACHE_PACKAGE_KEY PackageModel packages
                last_update w) as (r & w' & Hr & _ & _ & _ & _ & Hv).
    destruct Hv as (v & -> & Hv); [by auto| |].
    { rewrite Hp. by apply stored_not_nil. }
    exists v, w'. split_and!; try done.
    + intros Hlow. rewrite Hp in Hv.
      by apply (is_latest_stored_written pkg_pk).
    + intros Hnd. by rewrite Hp, stored_inserts in Hv.
  - intros Hw.
    destruct (retrieve_latest_total CACHE_NEWS_KEY NewsModel news
                last_modified w) as (r & w' & Hr & _ & _ & _ & _ & Hv).
    destruct Hv as (v & -> & Hv); [by auto| |].
    { rewrite Hn. by apply stored_not_nil. }
    exists v, w'. split_and!; try done.
    + intros Hlow. rewrite Hn in Hv.
      by apply (is_latest_stored_written news_id).
    + intros Hnd. by rewrite Hn, stored_inserts in Hv.
Qed.

Lemma latest_after_writes_witness :
  ∃ w, run Sample.events_with_update (Sample.world Sample.empty_db)
       = (Ok (), w) ∧
       packages (db w) = [Sample.P1; Sample.P2] ∧
       ∃ v w', retrieve_package_latest w = (Ok (Some v), w') ∧
               is_latest last_update
                 [Sample.P1_lowered; Sample.P1; Sample.P2] v.
Proof.
  destruct (latest_after_writes Sample.events_with_update
              (Sample.world Sample.empty_db))
    as (w & Hrun & Hp & _ & Hread & _); [reflexivity|reflexivity|].
  destruct Hread as (v & w' & Hr & _ & Hmax & _); [discriminate|].
  exists w. split; [exact Hrun|]. split; [exact Hp|].
  exists v, w'. split; [exact Hr|]. apply Hmax. simpl.
  split; [intros y Hy; by apply elem_of_nil in Hy|].
  split.
  - intros y Hy _. apply list_elem_of_singleton in Hy as ->. simpl. lia.
  - split; [|exact I].
    intros y Hy Hpk. apply list_elem_of_singleton in Hy as ->.
    simpl in Hpk. discriminate Hpk.
Defined.

(** ** The trackers under the names of the specification *)

Lemma is_latest_fmap {A} (f : A → Z) table v :
  is_latest id (f <$> table) v ↔ is_latest f table v.
Proof.
  unfold is_latest. setoid_rewrite list_elem_of_fmap. split.
  - intros [(x & (y & -> & Hy) & Hv) Hle]. split; [by exists y|].
    intros z Hz. apply (Hle (f z)). by exists z.
  - intros [(x & Hx & Hv) Hle]. split; [exists (f x); eauto|].
    intros y (z & -> & Hz). by apply Hle.
Qed.

Section collection_facts.
Variable c : collection.

Lemma currentLatest_hit w v :
  cache_lookup w (cache_key c) = Some v →
  currentLatest c w = (Ok (Some v), logged (CacheGet (cache_key c)) w).
Proof. destruct c; apply retrieve_latest_hit. Qed.

Lemma currentLatest_miss_nil w :
  cache_lookup w (cache_key c) = None → timestamps c (db w) = [] →
  currentLatest c w
  = (Ok None,
     logged (Query (collection_model c)) (logged (CacheGet (cache_key c)) w)).
Proof.
  destruct c; simpl; intros Hmiss Hnil%fmap_nil_inv;
    by apply retrieve_latest_miss_nil.
Qed.

Lemma onRecordWritten_Ok w :
  timestamps c (db w) ≠ [] →
  ∃ v, is_latest id (timestamps c (db w)) v ∧
       onRecordWritten c w
       = (Ok (),
          {| db := db w;
             cache := <[cache_key c := (v, clock w + 1800)]> (cache w);
             clock := clock w;
             log := CacheSet (cache_key c) v 1800
                    :: Query (collection_model c) :: log w |}).
Proof.
  destruct c; simpl; intros Hne.
  - destruct (refresh_latest_Ok CACHE_PACKAGE_KEY PackageModel packages
                last_update w) as (v & Hv & Hr).
    { intros Hnil. by rewrite Hnil in Hne. }
    exists v. by rewrite is_latest_fmap.
  - destruct (refresh_latest_Ok CACHE_NEWS_KEY NewsModel news
                last_modified w) as (v & Hv & Hr).
    { intros Hnil. by rewrite Hnil in Hne. }
    exists v. by rewrite is_latest_fmap.
Qed.
End collection_facts.

(** C2. On a collection with records, the write notification sends the
    aggregate query and then sets the cache entry, without a cache read: the
    entry is overwritten with the greatest timestamp and the expiry
    now + 1800, whatever the cache held.  A read that follows before the
    entry expires, with no write in between, returns that very value with
    one cache read and no query. *)
Theorem refresh_then_retrieve (c : collection) (w : World) (dt : Z) :
  timestamps c (db w) ≠ [] → dt < 1800 →
  ∃ v, is_latest id (timestamps c (db w)) v ∧
    let w1 := {| db := db w;
                 cache := <[cache_key c := (v, clock w + 1800)]> (cache w);
                 clock := clock w;
                 log := CacheSet (cache_key c) v 1800
                        :: Query (collection_model c) :: log w |} in
    let w2 := (tick dt w1).2 in
    onRecordWritten c w = (Ok (), w1) ∧
    currentLatest c w2 = (Ok (Some v), logged (CacheGet (cache_key c)) w2).
Proof.
  intros Hne Hdt. destruct (onRecordWritten_Ok c w Hne) as (v & Hv & Hr).
  exists v. split; [done|]. simpl. split; [done|].
  apply currentLatest_hit, cache_lookup_Some. exists (clock w + 1800). simpl.
  rewrite lookup_insert_eq. split; [done|lia].
Qed.

Lemma refresh_then_retrieve_witness :
  ∃ v, is_latest id [10; 30; 20] v ∧
       (onRecordWritten PackageCollection (Sample.world Sample.full_db)).1
       = Ok ().
Proof.
  destruct (refresh_then_retrieve PackageCollection
              (Sample.world Sample.full_db) 5) as (v & Hv & Hr & _);
    [discriminate|lia|].
  exists v. split; [exact Hv|]. apply (f_equal fst Hr).
Defined.

(** The cache and the database are as they were after any number of reads
    of an empty collection whose cache entry is absent. *)
Lemma after_reads_empty c n w :
  timestamps c (db w) = [] → cache w !! cache_key c = None →
  db (after_reads c n w) = db w ∧ cache (after_reads c n w) = cache w ∧
  clock (after_reads c n w) = clock w ∧
  log (after_reads c n w)
  = mjoin (replicate n [Query (collection_model c); CacheGet (cache_key c)])
    ++ log w.
Proof.
  intros Hnil Hnone. induction n as [|n (Hdb & Hcache & Hclock & Hlog)];
    [done|].
  unfold after_reads in *. simpl.
  rewrite currentLatest_miss_nil.
  - simpl. by rewrite Hlog.
  - apply cache_lookup_None. left. by rewrite Hcache.
  - by rewrite Hdb.
Qed.

(** C3. On an empty collection whose cache entry is absent, every call of
    [currentLatest], the first one and each one after it, sends the
    aggregate query again, returns [None] and leaves the cache as it was
    (no entry is written); [computeETag] then returns [None] as well. *)
Theorem empty_collection_none
    (md5_hexdigest : string → string)
    (str_kwargs : gmap string string → string)
    (str_datetime : timestamp → string)
    (c : collection) (kwargs : gmap string string) (w : World) (n : nat) :
  timestamps c (db w) = [] → cache w !! cache_key c = None →
  let wn := after_reads c n w in
  let w' := logged (Query (collection_model c))
              (logged (CacheGet (cache_key c)) wn) in
  log wn
  = mjoin (replicate n [Query (collection_model c); CacheGet (cache_key c)])
    ++ log w ∧
  currentLatest c wn = (Ok None, w') ∧
  cache w' = cache w ∧ cache w' !! cache_key c = None ∧
  computeETag md5_hexdigest str_kwargs str_datetime c kwargs wn = (Ok None, w').
Proof.
  intros Hnil Hnone wn w'.
  destruct (after_reads_empty c n w Hnil Hnone) as (Hdb & Hcache & _ & Hlog).
  assert (currentLatest c wn = (Ok None, w')) as Hread.
  { apply currentLatest_miss_nil.
    - apply cache_lookup_None. left. subst wn. by rewrite Hcache.
    - subst wn. by rewrite Hdb. }
  split_and!; [done|done|exact Hcache| |].
  - change (cache wn !! cache_key c = None). subst wn. by rewrite Hcache.
  - destruct c; simpl in *;
      unfold package_etag, news_etag, mbind, M_bind; by rewrite Hread.
Qed.

Lemma empty_collection_none_witness :
  (retrieve_package_latest
     (after_reads PackageCollection 2 (Sample.world Sample.empty_db))).1
  = Ok None.
Proof.
  destruct (empty_collection_none Sample.digest Sample.show_kwargs
              Sample.show_datetime PackageCollection ∅
              (Sample.world Sample.empty_db) 2) as (_ & Hr & _);
    [reflexivity|reflexivity|].
  apply (f_equal fst Hr).
Defined.

(** ** The ETag *)

Lemma append_inj_r (s a b : string) : s +:+ a = s +:+ b → a = b.
Proof. induction s as [|ch s IH]; simpl; [done|]. intros [= H]. auto. Qed.

Section etag_facts.
Variable md5_hexdigest : string → string.
Variable str_kwargs : gmap string string → string.
Variable str_datetime : timestamp → string.

Local Abbreviation computeETag :=
  (computeETag md5_hexdigest str_kwargs str_datetime).
Local Abbreviation etag_input := (etag_input str_kwargs str_datetime).

(** The ETag is the digest of [etag_input] at the timestamp that
    [currentLatest] returns, in the world that [currentLatest] leaves. *)
Lemma computeETag_currentLatest c kwargs w :
  computeETag c kwargs w
  = match currentLatest c w with
    | (Ok (Some t), w') =>
        (Ok (Some (md5_hexdigest (etag_input c kwargs t))), w')
    | (Ok None, w') => (Ok None, w')
    | (Raise e, w') => (Raise e, w')
    end.
Proof.
  destruct c; simpl; unfold package_etag, news_etag, mbind, M_bind;
    by repeat case_match.
Qed.

Lemma etag_input_inj c kwargs t1 t2 :
  (∀ a b, str_datetime a = str_datetime b → a = b) →
  etag_input c kwargs t1 = etag_input c kwargs t2 → t1 = t2.
Proof. intros Hinj. destruct c; simpl; [intros ?%append_inj_r|]; auto. Qed.

(** A read that answers [t] leaves a world in which the next read
    answers [t] again. *)
Lemma currentLatest_again c w t :
  (currentLatest c w).1 = Ok (Some t) →
  (currentLatest c (currentLatest c w).2).1 = Ok (Some t).
Proof.
  intros Hr. destruct (cache_lookup w (cache_key c)) as [v|] eqn:Hc.
  - pose proof (currentLatest_hit c w v Hc) as Hhit.
    rewrite Hhit in Hr |- *. simpl in Hr |- *. injection Hr as ->.
    by rewrite (currentLatest_hit c (logged (CacheGet (cache_key c)) w) t).
  - assert (∃ w', currentLatest c w = (Ok (Some t), w') ∧
                  cache_lookup w' (cache_key c) = Some t) as (w' & Hw' & Hc').
    { destruct c; simpl in *.
      - destruct (packages (db w)) as [|x l] eqn:Ht.
        { by rewrite retrieve_package_latest_shape,
            retrieve_latest_miss_nil in Hr. }
        rewrite retrieve_package_latest_shape in *.
        destruct (retrieve_latest_miss_Ok CACHE_PACKAGE_KEY PackageModel
                    packages last_update w Hc) as (v & _ & Hv);
          [by rewrite Ht|].
        rewrite Hv in *. simpl in Hr. injection Hr as ->.
        eexists. split; [done|]. apply cache_lookup_Some. simpl.
        exists (clock w + 1800). rewrite lookup_insert_eq. split; [done|lia].
      - destruct (news (db w)) as [|x l] eqn:Ht.
        { by rewrite retrieve_news_latest_shape,
            retrieve_latest_miss_nil in Hr. }
        rewrite retrieve_news_latest_shape in *.
        destruct (retrieve_latest_miss_Ok CACHE_NEWS_KEY NewsModel
                    news last_modified w Hc) as (v & _ & Hv);
          [by rewrite Ht|].
        rewrite Hv in *. simpl in Hr. injection Hr as ->.
        eexists. split; [done|]. apply cache_lookup_Some. simpl.
        exists (clock w + 1800). rewrite lookup_insert_eq. split; [done|lia]. }
    rewrite Hw'. simpl. by rewrite (currentLatest_hit c w' t Hc').
Qed.
End etag_facts.

(** C4. The ETag is the MD5 digest of a string fixed by the request
    parameters and by the timestamp that [currentLatest] returns.  Two calls
    with the same parameters in worlds where that timestamp is the same
    return the same string, and so does a second call made right after the
    first.  When the timestamp differs, the hashed strings differ ([str] of
    a datetime being one to one), so the two ETags differ unless MD5
    collides on these two strings. *)
Theorem etag_deterministic
    (md5_hexdigest : string → string)
    (str_kwargs : gmap string string → string)
    (str_datetime : timestamp → string)
    (c : collection) (kwargs : gmap string string)
    (w1 w2 : World) (t1 t2 : timestamp) :
  (∀ a b, str_datetime a = str_datetime b → a = b) →
  (currentLatest c w1).1 = Ok (Some t1) →
  (currentLatest c w2).1 = Ok (Some t2) →
  let etag := computeETag md5_hexdigest str_kwargs str_datetime c kwargs in
  let i1 := etag_input str_kwargs str_datetime c kwargs t1 in
  let i2 := etag_input str_kwargs str_datetime c kwargs t2 in
  (etag w1).1 = Ok (Some (md5_hexdigest i1)) ∧
  (etag w2).1 = Ok (Some (md5_hexdigest i2)) ∧
  (etag (etag w1).2).1 = (etag w1).1 ∧
  (t1 = t2 → (etag w1).1 = (etag w2).1) ∧
  (t1 ≠ t2 → i1 ≠ i2 ∧
     ((md5_hexdigest i1 = md5_hexdigest i2 → i1 = i2) →
      (etag w1).1 ≠ (etag w2).1)).
Proof.
  intros Hinj H1 H2 etag i1 i2.
  assert (∀ w t, (currentLatest c w).1 = Ok (Some t) →
            (etag w).1
            = Ok (Some (md5_hexdigest
                          (etag_input str_kwargs str_datetime c kwargs t))) ∧
            (etag w).2 = (currentLatest c w).2) as Hetag.
  { intros w t Hr. subst etag. simpl. rewrite computeETag_currentLatest.
    destruct (currentLatest c w) as [[[?|]|] ?]; simpl in *; by simplify_eq. }
  destruct (Hetag w1 t1 H1) as [He1 Hw1]. destruct (Hetag w2 t2 H2) as [He2 _].
  split_and!; try done.
  - rewrite He1, Hw1. by apply Hetag, currentLatest_again.
  - intros ->. by rewrite He1, He2.
  - intros Hne.
    assert (i1 ≠ i2) as Hi.
    { intros Heq.
      by apply Hne, (etag_input_inj str_kwargs str_datetime c kwargs). }
    split; [done|]. intros Hnc. rewrite He1, He2. intros [= Heq]. auto.
Qed.

Lemma etag_deterministic_witness :
  (package_etag Sample.digest Sample.show_kwargs Sample.show_datetime ∅
     (Sample.world Sample.full_db)).1
  ≠ (package_etag Sample.digest Sample.show_kwargs Sample.show_datetime ∅
       (Package_save Sample.P4 (Sample.world Sample.full_db)).2).1.
Proof.
  destruct (etag_deterministic Sample.digest Sample.show_kwargs
              Sample.show_datetime PackageCollection ∅
              (Sample.world Sample.full_db)
              (Package_save Sample.P4 (Sample.world Sample.full_db)).2
              30 50) as (_ & _ & _ & _ & Hne).
  - intros a b. apply (inj pretty).
  - vm_compute. reflexivity.
  - vm_compute. reflexivity.
  - apply Hne; [lia|]. intros Heq. vm_compute in Heq. discriminate Heq.
Defined.

(** ** The feeds *)

Section get_facts.
Context {A : Type}.
Implicit Types (table : list A) (qs : QuerySet A).

Lemma get_Ok table qs x :
  qs_limit qs = None → get table qs = Ok x →
  x ∈ table ∧ ∀ c, c ∈ qs_where qs → c x = true.
Proof.
  unfold get, fetch. intros ->. simpl.
  destruct (selected table qs) as [|y [|z l]] eqn:Hsel; try done.
  intros [= ->]. apply elem_of_selected. rewrite Hsel. left.
Qed.

Lemma get_DoesNotExist table qs :
  qs_limit qs = None →
  (∀ x, x ∈ table → ∃ c, c ∈ qs_where qs ∧ c x = false) →
  get table qs = Raise (DoesNotExist (qs_model qs)).
Proof.
  unfold get, fetch. intros -> Hnone. simpl.
  destruct (selected table qs) as [|y l] eqn:Hsel; [done|].
  assert (y ∈ selected table qs) as [Hy Hc]%elem_of_selected
    by (rewrite Hsel; left).
  destruct (Hnone y Hy) as (c & Hin & Hfalse).
  rewrite (Hc c Hin) in Hfalse. done.
Qed.
End get_facts.




Lemma Arch_objects_get_Ok d name a :
  Arch_objects_get d name = Ok a → a ∈ archs d ∧ arch_name a = name.
Proof.
  intros [Hin Hc]%get_Ok; [|done]. split; [done|].
  specialize (Hc _ (list_elem_of_here _ _)). by apply bool_decide_eq_true in Hc.
Qed.

Lemma Repo_objects_get_Ok d name r :
  Repo_objects_get d name = Ok r → r ∈ repos d ∧ repo_name r = name.
Proof.
  intros [Hin Hc]%get_Ok; [|done]. split; [done|].
  specialize (Hc _ (list_elem_of_here _ _)). by apply bool_decide_eq_true in Hc.
Qed.

Lemma Arch_objects_get_unknown d name :
  (∀ a, a ∈ archs d → arch_name a ≠ name) →
  Arch_objects_get d name = Raise (DoesNotExist ArchModel).
Proof.
  intros Hno. apply (get_DoesNotExist (archs d)); [done|].
  intros a Ha. eexists. split; [left|]. by apply bool_decide_eq_false, Hno.
Qed.

Lemma Repo_objects_get_unknown d name :
  (∀ r, r ∈ repos d → repo_name r ≠ name) →
  Repo_objects_get d name = Raise (DoesNotExist RepoModel).
Proof.
  intros Hno. apply (get_DoesNotExist (repos d)); [done|].
  intros r Hr. eexists. split; [left|]. by apply bool_decide_eq_false, Hno.
Qed.

(** [get_object] resolves the architecture, then the repository, and
    builds the dict of the resolved rows. *)
Lemma get_object_resolve d arch repo :
  get_object d arch repo
  = oa ← resolve (Arch_objects_get d) arch;
    or ← resolve (Repo_objects_get d) repo;
    mret (package_obj oa or).
Proof.
  unfold get_object, resolve.
  destruct (decide (arch ≠ "")); simpl;
    [destruct (Arch_objects_get d arch); simpl; [|done]|];
    (destruct (decide (repo ≠ "")); simpl;
       [by destruct (Repo_objects_get d repo)|done]).
Qed.

Lemma get_object_Ok d arch repo obj :
  get_object d arch repo = Ok obj →
  ∃ oa or, resolve (Arch_objects_get d) arch = Ok oa ∧
           resolve (Repo_objects_get d) repo = Ok or ∧
           obj = package_obj oa or.
Proof.
  rewrite get_object_resolve.
  destruct (resolve (Arch_objects_get d) arch) as [oa|]; [simpl|done].
  destruct (resolve (Repo_objects_get d) repo) as [or|]; [simpl|done].
  intros [= <-]. by exists oa, or.
Qed.

Lemma resolve_Ok {A} (lookup : string → result A) name o :
  resolve lookup name = Ok o →
  (name = "" ∧ o = None) ∨ (name ≠ "" ∧ ∃ x, o = Some x ∧ lookup name = Ok x).
Proof.
  unfold resolve. destruct (decide (name ≠ "")) as [Hne|Heq%dec_stable].
  - destruct (lookup name) as [x|]; simpl; [|done]. intros [= <-].
    right. eauto.
  - intros [= <-]. by left.
Qed.

Lemma package_items_obj d oa or :
  package_items d (package_obj oa or)
  = Ok (take 50 (selected (packages d) (package_query oa or))).
Proof.
  unfold package_items, items, getitem, package_obj.
  by rewrite lookup_insert_eq.
Qed.

Lemma package_obj_arch oa or :
  package_obj oa or !! "arch" = VArch <$> oa.
Proof.
  unfold package_obj. rewrite lookup_insert_ne by done.
  destruct or; [rewrite lookup_insert_ne by done|];
    (destruct oa; [by rewrite lookup_insert_eq|done]).
Qed.

Lemma package_obj_repo oa or :
  package_obj oa or !! "repo" = VRepo <$> or.
Proof.
  unfold package_obj. rewrite lookup_insert_ne by done.
  destruct or; [by rewrite lookup_insert_eq|].
  destruct oa; [by rewrite lookup_insert_ne|done].
Qed.

Lemma arch_condition_spec a p :
  arch_condition a p = true ↔
  arch_pk (arch p) = arch_pk a ∨ agnostic (arch p) = true.
Proof.
  unfold arch_condition. simpl.
  rewrite orb_true_iff, Z.eqb_eq, bool_decide_eq_true. done.
Qed.

Lemma repo_condition_spec r p :
  repo_condition r p = true ↔ repo_pk (repo p) = repo_pk r.
Proof. unfold repo_condition. simpl. apply Z.eqb_eq. Qed.

(** The rows that the query set of [get_object] keeps. *)
Lemma elem_of_selected_package_query d oa or p :
  p ∈ selected (packages d) (package_query oa or) ↔
  p ∈ packages d ∧
  (∀ a, oa = Some a →
        arch_pk (arch p) = arch_pk a ∨ agnostic (arch p) = true) ∧
  (∀ r, or = Some r → repo_pk (repo p) = repo_pk r).
Proof.
  rewrite elem_of_selected. simpl. setoid_rewrite elem_of_app.
  destruct oa as [a|], or as [r|]; simpl;
    setoid_rewrite list_elem_of_singleton || idtac;
    (split; [intros [Hin Hc]; split_and!; [done|..];
               intros ? [= <-];
               first [apply arch_condition_spec | apply repo_condition_spec];
               apply Hc; auto
            |intros (Hin & Ha & Hr); split; [done|];
               intros c [Hc|Hc]; try (by apply elem_of_nil in Hc); subst c;
               first [apply arch_condition_spec; by apply Ha
                     |apply repo_condition_spec; by apply Hr]]).
Qed.

Lemma StronglySorted_impl {A} (R1 R2 : relation A) l :
  (∀ x y, R1 x y → R2 x y) → StronglySorted R1 l → StronglySorted R2 l.
Proof.
  intros Himpl. induction 1 as [|x l Hs IH Hall]; constructor; [done|].
  eapply Forall_impl; [done|]. intros y. apply Himpl.
Qed.

Lemma selected_package_query_sorted d oa or :
  StronglySorted (λ p q, last_update q ≤ last_update p)
    (selected (packages d) (package_query oa or)).
Proof.
  eapply StronglySorted_impl; [|apply selected_sorted].
  intros x y. apply before_desc.
Qed.



(** C6. The packages a feed shows are the first fifty of the rows that
    pass the filters, taken after these rows are ordered by [last_update]
    descending: at most fifty, fifty when more than fifty rows pass, in
    descending order, and none of the rows left out is more recent than a
    row shown. *)
Theorem package_items_order_and_truncation (d : DB) (arch repo : string)
    (obj : gmap string value) :
  get_object d arch repo = Ok obj →
  ∃ qs l rest,
    items obj = Ok (VQuerySet qs) ∧
    qs_order_by qs = [Desc last_update] ∧ qs_limit qs = Some 50%nat ∧
    package_items d obj = Ok l ∧
    (length l ≤ 50)%nat ∧
    length l = (50 `min` length (l ++ rest))%nat ∧
    l ++ rest ≡ₚ filter (λ p, Is_true (satisfies (qs_where qs) p)) (packages d) ∧
    StronglySorted (λ p q, last_update q ≤ last_update p) (l ++ rest) ∧
    (∀ p q, p ∈ l → q ∈ rest → last_update q ≤ last_update p).
Proof.
  intros (oa & or & _ & _ & ->)%get_object_Ok.
  set (s := selected (packages d) (package_query oa or)).
  assert (StronglySorted (λ p q, last_update q ≤ last_update p)
            (take 50 s ++ drop 50 s)) as Hs.
  { rewrite take_drop. apply selected_package_query_sorted. }
  exists (package_query oa or), (take 50 s), (drop 50 s).
  split_and!; try done.
  - unfold items, getitem, package_obj. by rewrite lookup_insert_eq.
  - apply package_items_obj.
  - rewrite length_take. lia.
  - by rewrite take_drop, length_take.
  - rewrite take_drop. apply selected_Permutation.
  - intros p q Hp Hq.
    by apply (StronglySorted_app_1_elem_of _ _ _ _ _ Hs Hp Hq).
Qed.

Lemma package_items_order_and_truncation_witness :
  ∃ l, package_items Sample.full_db (package_obj None (Some Sample.core)) = Ok l ∧
       (length l ≤ 50)%nat.
Proof.
  destruct (package_items_order_and_truncation Sample.full_db "" "Core"
              (package_obj None (Some Sample.core)))
    as (qs & l & rest & _ & _ & _ & Hitems & Hlen & _); [reflexivity|].
  exists l. split; [exact Hitems|exact Hlen].
Defined.

Lemma StronglySorted_lookup_lt {A} (R : relation A) l i j x y :
  StronglySorted R l → l !! i = Some x → l !! j = Some y → (i < j)%nat → R x y.
Proof.
  intros Hs. revert i j. induction Hs as [|z l Hs IH Hall]; intros i j; [done|].
  destruct i as [|i], j as [|j]; simpl; try lia.
  - intros [= ->] Hy _. rewrite Forall_forall in Hall.
    apply Hall. by eapply list_elem_of_lookup_2.
  - intros Hx Hy Hlt. apply (IH i j); [done|done|lia].
Qed.

(** C7. The news feed shows at most ten items, the first ten of all the
    news ordered descending by [(postdate, id)]: an item comes before
    another when its [postdate] is greater or, at equal [postdate], when
    its [id] is greater.  So of two items shown with the same [postdate],
    the one with the greater [id] is first. *)
Theorem news_items_order (d : DB) :
  let l := news_items d in
  let R := λ x y : News,
             postdate y < postdate x ∨
             (postdate y = postdate x ∧ news_id y ≤ news_id x) in
  (length l ≤ 10)%nat ∧
  length l = (10 `min` length (news d))%nat ∧
  (∃ rest, l ++ rest ≡ₚ news d ∧ StronglySorted R (l ++ rest)) ∧
  StronglySorted R l ∧
  (∀ i j x y, l !! i = Some x → l !! j = Some y →
              postdate x = postdate y → news_id y < news_id x → (i < j)%nat).
Proof.
  intros l R.
  set (s := selected (news d) NewsFeed_items).
  assert (l = take 10 s) as Hl by done.
  assert (StronglySorted R s) as Hs.
  { eapply StronglySorted_impl; [|apply selected_sorted].
    intros x y. apply before_desc_desc. }
  assert (s ≡ₚ news d) as Hp by by apply selected_no_where.
  assert (StronglySorted R l) as Hsl.
  { rewrite <- (take_drop 10 s) in Hs. rewrite Hl.
    by apply StronglySorted_app_1_l in Hs. }
  split_and!.
  - rewrite Hl, length_take. lia.
  - by rewrite Hl, length_take, Hp.
  - exists (drop 10 s). by rewrite Hl, take_drop.
  - done.
  - intros i j x y Hx Hy Hpost Hid.
    destruct (Nat.lt_total i j) as [Hlt|[->|Hgt]]; [done| |].
    + rewrite Hx in Hy. injection Hy as ->. lia.
    + pose proof (StronglySorted_lookup_lt R l j i y x Hsl Hy Hx Hgt) as Hr.
      subst R. simpl in Hr. lia.
Qed.

(** The items with ids 5 and 7 of the same date: 7 comes first. *)
Example news_items_tie_break :
  news_items Sample.full_db = [Sample.N7; Sample.N5].
Proof. vm_compute. reflexivity. Qed.

Lemma append_assoc (a b c : string) : (a +:+ b) +:+ c = a +:+ (b +:+ c).
Proof.
  induction a as [|ch a IH]; [done|].
  change (String ch ((a +:+ b) +:+ c) = String ch (a +:+ (b +:+ c))).
  by rewrite IH.
Qed.

Lemma contains_package_obj_arch oa or :
  contains "arch" (package_obj oa or) = bool_decide (is_Some oa).
Proof. unfold contains. rewrite package_obj_arch. by destruct oa. Qed.

Lemma contains_package_obj_repo oa or :
  contains "repo" (package_obj oa or) = bool_decide (is_Some or).
Proof. unfold contains. rewrite package_obj_repo. by destruct or. Qed.

(** The title of the feed built from resolved rows. *)
Lemma title_package_obj lower oa or :
  title lower (package_obj oa or)
  = match or, oa with
    | Some r, Some a =>
        Ok ("Arch Linux: Recent package updates"
            +:+ " (" +:+ arch_name a +:+ " [" +:+ lower (repo_name r) +:+ "])")
    | Some r, None => Raise (KeyError "arch")
    | None, Some a =>
        Ok ("Arch Linux: Recent package updates" +:+ " (" +:+ arch_name a +:+ ")")
    | None, None => Ok "Arch Linux: Recent package updates"
    end.
Proof.
  unfold title, getitem.
  rewrite contains_package_obj_repo, contains_package_obj_arch,
    package_obj_arch, package_obj_repo.
  by destruct oa, or.
Qed.

Lemma description_package_obj lower oa or :
  description lower (package_obj oa or)
  = Ok ("Recently updated packages in the Arch Linux package repositories"
        +:+ match oa with
            | Some a =>
                " for the '" +:+ lower (arch_name a) +:+ "' architecture"
                +:+ (if agnostic a then "" else " (including 'any' packages)")
            | None => ""
            end
        +:+ match or with
            | Some r => " in the [" +:+ lower (repo_name r) +:+ "] repository"
            | None => ""
            end
        +:+ ".").
Proof.
  unfold description, getitem.
  rewrite contains_package_obj_repo, contains_package_obj_arch,
    package_obj_arch, package_obj_repo.
  destruct oa as [a|], or as [r|]; simpl; try destruct (agnostic a); simpl;
    by rewrite ?append_assoc.
Qed.

(** C8 as stated fails: for the architecture "ARM" and the repository
    "Core" the title holds the architecture name as it is stored, not
    lowercased; the lowercased name does not occur in it. *)
Lemma title_keeps_architecture_case :
  get_object Sample.full_db "ARM" "Core"
  = Ok (package_obj (Some Sample.arm) (Some Sample.core)) ∧
  title ascii_lower (package_obj (Some Sample.arm) (Some Sample.core))
  = Ok "Arch Linux: Recent package updates (ARM [core])" ∧
  title ascii_lower (package_obj (Some Sample.arm) (Some Sample.core))
  ≠ Ok (claimed_title ascii_lower Sample.arm Sample.core) ∧
  String.index 0 (ascii_lower "ARM")
    "Arch Linux: Recent package updates (ARM [core])" = None.
Proof.
  split_and!; [reflexivity| |  |reflexivity].
  - by rewrite title_package_obj.
  - rewrite title_package_obj. vm_compute. discriminate.
Qed.

(** C8, amended. For the dict that [get_object] returns, with [a] the
    architecture and [r] the repository that the names given resolve to:
    the title, when an architecture is given, is the base string followed
    by the name of [a] as stored (not lowercased) in parentheses, with the
    lowercased name of [r] in brackets after it when a repository is given
    too, and with no name given it is the base string; it carries no note
    on agnostic packages (the title of a feed given a repository without
    an architecture is left out).  The description, in every case, is the
    base string, followed when an architecture is given by the lowercased
    name of [a] and, when [a] is not agnostic, by the note on 'any'
    packages, then when a repository is given by the lowercased name of
    [r], then by a full stop. *)
Theorem feed_title_and_description (lower : string → string) (d : DB)
    (archname reponame : string) (obj : gmap string value) :
  get_object d archname reponame = Ok obj →
  ∃ oa or,
    resolve (Arch_objects_get d) archname = Ok oa ∧
    resolve (Repo_objects_get d) reponame = Ok or ∧
    (archname = "" ↔ oa = None) ∧ (reponame = "" ↔ or = None) ∧
    (∀ a, oa = Some a → a ∈ archs d ∧ arch_name a = archname) ∧
    (∀ r, or = Some r → r ∈ repos d ∧ repo_name r = reponame) ∧
    match oa, or with
    | Some a, Some r =>
        title lower obj
        = Ok ("Arch Linux: Recent package updates"
              +:+ " (" +:+ arch_name a +:+ " [" +:+ lower (repo_name r) +:+ "])")
    | Some a, None =>
        title lower obj
        = Ok ("Arch Linux: Recent package updates"
              +:+ " (" +:+ arch_name a +:+ ")")
    | None, None => title lower obj = Ok "Arch Linux: Recent package updates"
    | None, Some _ => True
    end ∧
    description lower obj
    = Ok ("Recently updated packages in the Arch Linux package repositories"
          +:+ match oa with
              | Some a =>
                  " for the '" +:+ lower (arch_name a) +:+ "' architecture"
                  +:+ (if agnostic a then "" else " (including 'any' packages)")
              | None => ""
              end
          +:+ match or with
              | Some r => " in the [" +:+ lower (repo_name r) +:+ "] repository"
              | None => ""
              end
          +:+ ".").
Proof.
  intros (oa & or & Ha & Hr & ->)%get_object_Ok.
  exists oa, or. split_and!; try done.
  - apply resolve_Ok in Ha as [[-> ->]|(? & a & -> & _)]; [done|].
    split; [done|discriminate].
  - apply resolve_Ok in Hr as [[-> ->]|(? & r & -> & _)]; [done|].
    split; [done|discriminate].
  - intros a ->. apply resolve_Ok in Ha as [[_ [=]]|(_ & a' & [= <-] & Ha)].
    by apply Arch_objects_get_Ok.
  - intros r ->. apply resolve_Ok in Hr as [[_ [=]]|(_ & r' & [= <-] & Hr)].
    by apply Repo_objects_get_Ok.
  - rewrite title_package_obj. by destruct oa as [a|], or as [r|].
  - apply description_package_obj.
Qed.

Lemma feed_title_and_description_witness :
  title ascii_lower (package_obj (Some Sample.arm) (Some Sample.core))
  = Ok "Arch Linux: Recent package updates (ARM [core])" ∧
  description ascii_lower (package_obj None (Some Sample.core))
  = Ok "Recently updated packages in the Arch Linux package repositories in the [core] repository.".
Proof.
  split.
  - destruct (feed_title_and_description ascii_lower Sample.full_db "ARM"
                "Core" (package_obj (Some Sample.arm) (Some Sample.core)))
      as (oa & or & Ha & Hr & _ & _ & _ & _ & Htitle & _); [reflexivity|].
    vm_compute in Ha. injection Ha as <-.
    vm_compute in Hr. injection Hr as <-. exact Htitle.
  - destruct (feed_title_and_description ascii_lower Sample.full_db ""
                "Core" (package_obj None (Some Sample.core)))
      as (oa & or & Ha & Hr & _ & _ & _ & _ & _ & Hdescr); [reflexivity|].
    vm_compute in Ha. injection Ha as <-.
    vm_compute in Hr. injection Hr as <-. exact Hdescr.
Defined.

(** A column with distinct values selects at most one row. *)
Lemma filter_key_length {A} (f : A → string) (P : A → Prop)
    `{∀ x, Decision (P x)} (k : string) (l : list A) :
  (∀ x, P x → f x = k) → NoDup (f <$> l) → (length (filter P l) ≤ 1)%nat.
Proof.
  intros HP. induction l as [|x l IH]; simpl; [lia|].
  intros [Hnotin Hnd]%NoDup_cons. rewrite filter_cons. case_decide as Hx.
  - assert (filter P l = []) as ->; [|simpl; lia].
    destruct (filter P l) as [|y l'] eqn:Hf; [done|].
    assert (y ∈ filter P l) as [Hy Hin]%list_elem_of_filter
      by (rewrite Hf; left).
    destruct Hnotin. rewrite (HP x Hx), <- (HP y Hy).
    by apply list_elem_of_fmap_2.
  - specialize (IH Hnd). lia.
Qed.

Lemma get_unique {A} (f : A → string) (m : model) (k : string) (table : list A) :
  NoDup (f <$> table) →
  let r := get table (qs_filter (λ x, bool_decide (f x = k)) (all_objects m)) in
  (∃ x, r = Ok x) ∨ r = Raise (DoesNotExist m).
Proof.
  intros Hnd. simpl. unfold get, fetch. simpl.
  set (qs := qs_filter _ _).
  pose proof (selected_Permutation table qs) as Hp.
  apply Permutation_length in Hp.
  pose proof (filter_key_length f
                (λ x, Is_true (satisfies (qs_where qs) x)) k table) as Hlen.
  rewrite <- Hp in Hlen.
  destruct (selected table qs) as [|x [|y l]]; [by right|left; eauto|].
  simpl in Hlen. exfalso.
  assert (S (S (length l)) ≤ 1)%nat; [|lia]. apply Hlen; [|done].
  intros z. rewrite andb_true_r. by intros ?%bool_decide_unpack.
Qed.

Lemma resolve_Raise {A} (lookup : string → result A) name e :
  name ≠ "" → lookup name = Raise e → resolve lookup name = Raise e.
Proof. intros Hne Hl. unfold resolve. rewrite decide_True by done. by rewrite Hl. Qed.

Lemma resolve_empty {A} (lookup : string → result A) :
  resolve lookup "" = Ok None.
Proof. unfold resolve. by rewrite decide_False by (intros H; by apply H). Qed.

Lemma resolve_found {A} (lookup : string → result A) name x :
  name ≠ "" → lookup name = Ok x → resolve lookup name = Ok (Some x).
Proof. intros Hne Hl. unfold resolve. rewrite decide_True by done. by rewrite Hl. Qed.

(** C9. When the architecture name given resolves to no architecture,
    [get_object] raises [Arch.DoesNotExist]; when the repository name given
    resolves to no repository it raises [Repo.DoesNotExist], unless the
    lookup of the architecture has raised before it (which, architecture
    names being distinct, is [Arch.DoesNotExist]).  In neither case does it
    return a dict. *)
Theorem unresolved_name_not_found (d : DB) (archname reponame : string) :
  (archname ≠ "" → (∀ a, a ∈ archs d → arch_name a ≠ archname) →
   get_object d archname reponame = Raise (DoesNotExist ArchModel)) ∧
  (reponame ≠ "" → (∀ r, r ∈ repos d → repo_name r ≠ reponame) →
   (∀ obj, get_object d archname reponame ≠ Ok obj) ∧
   (∀ oa, resolve (Arch_objects_get d) archname = Ok oa →
          get_object d archname reponame = Raise (DoesNotExist RepoModel)) ∧
   (NoDup (arch_name <$> archs d) →
    ∃ m, get_object d archname reponame = Raise (DoesNotExist m))).
Proof.
  split.
  - intros Hne Hno. rewrite get_object_resolve.
    rewrite (resolve_Raise (Arch_objects_get d) archname
               (DoesNotExist ArchModel)); [done|done|].
    by apply Arch_objects_get_unknown.
  - intros Hne Hno.
    assert (resolve (Repo_objects_get d) reponame
            = Raise (DoesNotExist RepoModel)) as Hr.
    { apply resolve_Raise; [done|]. by apply Repo_objects_get_unknown. }
    assert (∀ oa, resolve (Arch_objects_get d) archname = Ok oa →
              get_object d archname reponame = Raise (DoesNotExist RepoModel))
      as Hok.
    { intros oa Ha. by rewrite get_object_resolve, Ha, Hr. }
    split_and!; [|done|].
    + intros obj. rewrite get_object_resolve.
      destruct (resolve (Arch_objects_get d) archname); simpl; [|done].
      by rewrite Hr.
    + intros Hnd.
      destruct (resolve (Arch_objects_get d) archname) as [oa|e] eqn:Ha;
        [exists RepoModel; eauto|].
      exists ArchModel. rewrite get_object_resolve, Ha. simpl.
      unfold resolve in Ha. case_decide; [|done].
      destruct (get_unique arch_name ArchModel archname (archs d) Hnd)
        as [[a Hget]|Hget]; unfold Arch_objects_get, Arch_objects in Ha;
        rewrite Hget in Ha; simpl in Ha; [done|]. by injection Ha as <-.
Qed.

Lemma unresolved_name_not_found_witness :
  get_object Sample.full_db "nonexistent" "" = Raise (DoesNotExist ArchModel) ∧
  get_object Sample.full_db "x86" "nonexistent"
  = Raise (DoesNotExist RepoModel).
Proof.
  split.
  - apply (unresolved_name_not_found Sample.full_db "nonexistent" "");
      [done|]. intros a Ha. simpl in Ha.
    repeat (apply elem_of_cons in Ha as [->|Ha]; [done|]).
    by apply elem_of_nil in Ha.
  - apply (unresolved_name_not_found Sample.full_db "x86" "nonexistent")
      with (oa := Some Sample.x86); [done| |reflexivity].
    intros r Hr. simpl in Hr.
    repeat (apply elem_of_cons in Hr as [->|Hr]; [done|]).
    by apply elem_of_nil in Hr.
Defined.

(** C10. A call of [get_object] with a repository name and no architecture
    name is not rejected: when the repository resolves to [r], the dict
    returned has [r] under 'repo' and no 'arch' entry, its packages are
    those of [r], whatever their architecture, and [title] on it raises
    [KeyError] on 'arch'. *)
Theorem repo_only_feed_title_fails (d : DB) (reponame : string) (r : Repo) :
  reponame ≠ "" → Repo_objects_get d reponame = Ok r →
  ∃ obj l,
    get_object d "" reponame = Ok obj ∧
    obj !! "repo" = Some (VRepo r) ∧ obj !! "arch" = None ∧
    package_items d obj = Ok (take 50 l) ∧
    (∀ p, p ∈ l ↔ p ∈ packages d ∧ repo_pk (repo p) = repo_pk r) ∧
    ∀ lower, title lower obj = Raise (KeyError "arch").
Proof.
  intros Hne Hr.
  exists (package_obj None (Some r)),
         (selected (packages d) (package_query None (Some r))).
  split_and!.
  - by rewrite get_object_resolve, resolve_empty,
      (resolve_found (Repo_objects_get d) reponame r).
  - by rewrite package_obj_repo.
  - by rewrite package_obj_arch.
  - apply package_items_obj.
  - intros p. rewrite elem_of_selected_package_query. split.
    + intros (Hin & _ & Hpr). split; auto.
    + intros (Hin & Hpr). split_and!; [done|done|]. by intros ? [= <-].
  - intros lower. by rewrite title_package_obj.
Qed.

Lemma repo_only_feed_title_fails_witness :
  ∃ obj, get_object Sample.full_db "" "Core" = Ok obj ∧
         title ascii_lower obj = Raise (KeyError "arch").
Proof.
  destruct (repo_only_feed_title_fails Sample.full_db "Core" Sample.core)
    as (obj & l & Hget & _ & _ & _ & _ & Htitle); [done|reflexivity|].
  exists obj. split; [exact Hget|exact (Htitle ascii_lower)].
Defined.

(** ** The scenarios of the specification on the sample data *)

(** Packages of x86, any and arm: the x86 feed shows the first two, the
    most recent first. *)
Example x86_feed_items :
  (obj ← get_object Sample.full_db "x86" ""; package_items Sample.full_db obj)
  = Ok [Sample.P2; Sample.P1].
Proof. vm_compute. reflexivity. Qed.

(** The same feed restricted to the repository Core. *)
Example x86_core_feed_items :
  (obj ← get_object Sample.full_db "x86" "Core";
   package_items Sample.full_db obj)
  = Ok [Sample.P1].
Proof. vm_compute. reflexivity. Qed.

(** Sixty packages that pass the filters: the fifty most recent. *)
Example sixty_packages_truncated :
  (obj ← get_object Sample.big_db "x86" "Core";
   l ← package_items Sample.big_db obj;
   Ok (last_update <$> (l : list Package)))
  = Ok (reverse (seqZ 11 50)).
Proof. vm_compute. reflexivity. Qed.

(** The ETag of the package feed changes with a write that moves the
    latest timestamp. *)
Example etag_changes_with_write :
  let etag := package_etag Sample.digest Sample.show_kwargs
                Sample.show_datetime ∅ in
  (etag (Sample.world Sample.full_db)).1 = Ok (Some "md5:{}30") ∧
  ((Package_save Sample.P4;; etag) (Sample.world Sample.full_db)).1
  = Ok (Some "md5:{}50").
Proof. vm_compute. split; reflexivity. Qed.

(** A save of an existing record replaces it: after an update that lowers
    the only timestamp, the latest timestamp is the lowered one. *)
Example update_replaces_record :
  let P1' := {| pkg_pk := 1; pkgname := "linux"; arch := Sample.x86;
                repo := Sample.core; last_update := 5 |} in
  ((run [SavePackage Sample.P1; SavePackage P1'];; retrieve_package_latest)
     (Sample.world Sample.empty_db)).1
  = Ok (Some 5).
Proof. vm_compute. reflexivity. Qed.

(** * Further properties of the module *)

(** ** Reads, the notification and the expiry of entries *)

Lemma currentLatest_miss_Ok c w :
  cache_lookup w (cache_key c) = None → timestamps c (db w) ≠ [] →
  ∃ v, is_latest id (timestamps c (db w)) v ∧
       currentLatest c w
       = (Ok (Some v),
          {| db := db w;
             cache := <[cache_key c := (v, clock w + 1800)]> (cache w);
             clock := clock w;
             log := CacheSet (cache_key c) v 1800
                    :: Query (collection_model c)
                    :: CacheGet (cache_key c) :: log w |}).
Proof.
  destruct c; simpl; intros Hmiss Hne.
  - destruct (retrieve_latest_miss_Ok CACHE_PACKAGE_KEY PackageModel packages
                last_update w Hmiss) as (v & Hv & Hr).
    { intros Hnil. by rewrite Hnil in Hne. }
    exists v. by rewrite is_latest_fmap.
  - destruct (retrieve_latest_miss_Ok CACHE_NEWS_KEY NewsModel news
                last_modified w Hmiss) as (v & Hv & Hr).
    { intros Hnil. by rewrite Hnil in Hne. }
    exists v. by rewrite is_latest_fmap.
Qed.

(** The outcome of a read, in all worlds. *)
Lemma currentLatest_outcome (c : collection) (w : World) :
  ∃ r w', currentLatest c w = (Ok r, w') ∧
          db w' = db w ∧ clock w' = clock w ∧
          (∀ k, k ≠ cache_key c → cache w' !! k = cache w !! k) ∧
          (r = None ↔
           cache_lookup w (cache_key c) = None ∧ timestamps c (db w) = []).
Proof.
  destruct (cache_lookup w (cache_key c)) as [v|] eqn:Hc.
  - exists (Some v), (logged (CacheGet (cache_key c)) w).
    split; [by apply currentLatest_hit|]. split_and!; try done.
    split; [done|]. by intros [? _].
  - destruct (timestamps c (db w)) as [|t ts] eqn:Ht.
    + eexists _, _. split; [by apply currentLatest_miss_nil|].
      by split_and!.
    + destruct (currentLatest_miss_Ok c w Hc) as (v & _ & ->);
        [by rewrite Ht|].
      eexists _, _. split; [done|]. simpl. split_and!; try done.
      * intros k Hk. by rewrite lookup_insert_ne.
      * split; [done|]. by intros [_ ?].
Qed.

(** X1. A read never raises: the [DoesNotExist] of the query is caught and
    no other exception can occur.  It leaves the database, the clock and
    the cache entries of other keys as they were, and it answers [None]
    exactly when no live entry is cached and the collection is empty. *)
Theorem currentLatest_never_raises (c : collection) (w : World) :
  ∃ r w', currentLatest c w = (Ok r, w') ∧
          db w' = db w ∧ clock w' = clock w ∧
          (∀ k, k ≠ cache_key c → cache w' !! k = cache w !! k) ∧
          (r = None ↔
           cache_lookup w (cache_key c) = None ∧ timestamps c (db w) = []).
Proof. apply currentLatest_outcome. Qed.

(** X2. The write notification has no handler for [DoesNotExist]: on an
    empty collection it raises it after the query and leaves the cache as
    it was; on a collection with records it does not raise. *)
Theorem onRecordWritten_raises_iff_empty (c : collection) (w : World) :
  (timestamps c (db w) = [] →
   onRecordWritten c w
   = (Raise (DoesNotExist (collection_model c)),
      logged (Query (collection_model c)) w)) ∧
  (timestamps c (db w) ≠ [] → ∃ w', onRecordWritten c w = (Ok (), w')).
Proof.
  split.
  - destruct c; simpl; intros Hnil%fmap_nil_inv; by apply refresh_latest_nil.
  - intros Hne. destruct (onRecordWritten_Ok c w Hne) as (v & _ & ->). eauto.
Qed.

Lemma onRecordWritten_raises_iff_empty_witness :
  (onRecordWritten NewsCollection (Sample.world Sample.empty_db)).1
  = Raise (DoesNotExist NewsModel) ∧
  ∃ w', onRecordWritten NewsCollection (Sample.world Sample.full_db)
        = (Ok (), w').
Proof.
  split.
  - rewrite (proj1 (onRecordWritten_raises_iff_empty NewsCollection
                      (Sample.world Sample.empty_db))); reflexivity.
  - apply (onRecordWritten_raises_iff_empty NewsCollection
             (Sample.world Sample.full_db)). discriminate.
Defined.

(** X3. An entry, whatever its value, is served until its expiry time and
    not after it: a read before the expiry returns the cached value without
    a query, whatever the collection holds; the first read at or after the
    expiry sends the query and, when the collection has records, returns
    their greatest timestamp and stores it with the expiry now + 1800,
    while on an empty collection it returns [None] and stores nothing. *)
Theorem entry_served_until_expiry (c : collection) (w : World)
    (v : timestamp) (e : Z) :
  cache w !! cache_key c = Some (v, e) →
  (clock w < e →
   currentLatest c w = (Ok (Some v), logged (CacheGet (cache_key c)) w)) ∧
  (e ≤ clock w → timestamps c (db w) ≠ [] →
   ∃ m, is_latest id (timestamps c (db w)) m ∧
        currentLatest c w
        = (Ok (Some m),
           {| db := db w;
              cache := <[cache_key c := (m, clock w + 1800)]> (cache w);
              clock := clock w;
              log := CacheSet (cache_key c) m 1800
                     :: Query (collection_model c)
                     :: CacheGet (cache_key c) :: log w |})) ∧
  (e ≤ clock w → timestamps c (db w) = [] →
   currentLatest c w
   = (Ok None,
      logged (Query (collection_model c)) (logged (CacheGet (cache_key c)) w))).
Proof.
  intros Hentry. split_and!.
  - intros Hlive. apply currentLatest_hit, cache_lookup_Some. eauto.
  - intros Hexp Hne. apply currentLatest_miss_Ok; [|done].
    apply cache_lookup_None. right. eauto.
  - intros Hexp Hnil. apply currentLatest_miss_nil; [|done].
    apply cache_lookup_None. right. eauto.
Qed.

Lemma entry_served_until_expiry_witness :
  let w := (tick 1800 (Package_save Sample.P1
                         (Sample.world Sample.full_db)).2).2 in
  ∃ m, (currentLatest PackageCollection w).1 = Ok (Some m).
Proof.
  intros w.
  destruct (entry_served_until_expiry PackageCollection w 30 1800)
    as (_ & Hexpired & _); [reflexivity|].
  destruct Hexpired as (m & _ & Hr); [vm_compute; discriminate|discriminate|].
  exists m. apply (f_equal fst Hr).
Defined.

(** X4. Reads served by the cache do not touch it: after any number of
    reads of a live entry the cache and the database are as they were, the
    only calls made are the cache reads, one per call, and the next read
    returns the same value.  The expiry set when the entry was stored is
    not prolonged. *)
Theorem cached_reads_send_no_query (c : collection) (w : World)
    (v : timestamp) (n : nat) :
  cache_lookup w (cache_key c) = Some v →
  let wn := after_reads c n w in
  db wn = db w ∧ cache wn = cache w ∧ clock wn = clock w ∧
  log wn = replicate n (CacheGet (cache_key c)) ++ log w ∧
  currentLatest c wn = (Ok (Some v), logged (CacheGet (cache_key c)) wn).
Proof.
  intros Hhit.
  assert (∀ w', cache w' = cache w → clock w' = clock w →
            cache_lookup w' (cache_key c) = Some v) as Hsame.
  { intros w' Hc Hk. unfold cache_lookup in *. by rewrite Hc, Hk. }
  induction n as [|n (Hdb & Hcache & Hclock & Hlog & Hread)]; simpl.
  { split_and!; try done. by apply currentLatest_hit. }
  unfold after_reads in *. simpl. rewrite Hread. simpl.
  split_and!; try done.
  - by rewrite Hlog.
  - apply currentLatest_hit, Hsame; done.
Qed.

Lemma cached_reads_send_no_query_witness :
  let w := (Package_save Sample.P1 (Sample.world Sample.full_db)).2 in
  log (after_reads PackageCollection 3 w)
  = replicate 3 (CacheGet CACHE_PACKAGE_KEY) ++ log w.
Proof.
  intros w.
  destruct (cached_reads_send_no_query PackageCollection w 30 3)
    as (_ & _ & _ & Hlog & _); [reflexivity|exact Hlog].
Defined.

(** ** The two trackers side by side *)

(** What a read answers depends on the entry of its key, on the clock and
    on the timestamps of its collection, and on nothing else. *)
Lemma currentLatest_frame c w1 w2 :
  cache w1 !! cache_key c = cache w2 !! cache_key c →
  clock w1 = clock w2 →
  timestamps c (db w1) = timestamps c (db w2) →
  (currentLatest c w1).1 = (currentLatest c w2).1.
Proof.
  intros Hc Hk Ht.
  assert (cache_lookup w1 (cache_key c) = cache_lookup w2 (cache_key c)) as Hl.
  { unfold cache_lookup. by rewrite Hc, Hk. }
  destruct (cache_lookup w2 (cache_key c)) as [v|] eqn:H2.
  - by rewrite (currentLatest_hit c w1 v), (currentLatest_hit c w2 v).
  - destruct (timestamps c (db w2)) as [|t ts] eqn:Ht2.
    + by rewrite (currentLatest_miss_nil c w1), (currentLatest_miss_nil c w2).
    + destruct (currentLatest_miss_Ok c w1 Hl) as (v1 & Hv1 & ->);
        [by rewrite Ht|].
      destruct (currentLatest_miss_Ok c w2 H2) as (v2 & Hv2 & ->);
        [by rewrite Ht2|].
      simpl. rewrite Ht in Hv1. rewrite Ht2 in Hv2.
      by rewrite (is_latest_unique _ _ _ _ Hv1 Hv2).
Qed.

(** The world after a save, for each of the two models. *)
Lemma Package_save_world p w :
  ∃ v, is_latest last_update (upsert pkg_pk p (packages (db w))) v ∧
       Package_save p w
       = (Ok (),
          {| db := {| archs := archs (db w); repos := repos (db w);
                      packages := upsert pkg_pk p (packages (db w));
                      news := news (db w) |};
             cache := <[CACHE_PACKAGE_KEY := (v, clock w + 1800)]> (cache w);
             clock := clock w;
             log := CacheSet CACHE_PACKAGE_KEY v 1800
                    :: Query PackageModel :: log w |}).
Proof.
  unfold Package_save, with_db, post_save_send.
  unfold mbind at 1. unfold M_bind.
  rewrite refresh_package_latest_shape.
  match goal with |- context [refresh_latest _ _ _ _ ?w0] =>
    destruct (refresh_latest_Ok CACHE_PACKAGE_KEY PackageModel packages
                last_update w0) as (v & Hv & ->)
  end; [apply upsert_not_nil|].
  by exists v.
Qed.

Lemma News_save_world n w :
  ∃ v, is_latest last_modified (upsert news_id n (news (db w))) v ∧
       News_save n w
       = (Ok (),
          {| db := {| archs := archs (db w); repos := repos (db w);
                      packages := packages (db w);
                      news := upsert news_id n (news (db w)) |};
             cache := <[CACHE_NEWS_KEY := (v, clock w + 1800)]> (cache w);
             clock := clock w;
             log := CacheSet CACHE_NEWS_KEY v 1800
                    :: Query NewsModel :: log w |}).
Proof.
  unfold News_save, with_db, post_save_send.
  unfold mbind at 1. unfold M_bind.
  rewrite refresh_news_latest_shape.
  match goal with |- context [refresh_latest _ _ _ _ ?w0] =>
    destruct (refresh_latest_Ok CACHE_NEWS_KEY NewsModel news
                last_modified w0) as (v & Hv & ->)
  end; [apply upsert_not_nil|].
  by exists v.
Qed.

(** X5. The two trackers do not interact: a saved package, with its
    notification, leaves what a read of the news answers as it was, and a
    saved news item leaves what a read of the packages answers as it was,
    cached or not. *)
Theorem trackers_do_not_interact (p : Package) (n : News) (w : World) :
  (currentLatest NewsCollection (Package_save p w).2).1
  = (currentLatest NewsCollection w).1 ∧
  (currentLatest PackageCollection (News_save n w).2).1
  = (currentLatest PackageCollection w).1 ∧
  cache (Package_save p w).2 !! CACHE_NEWS_KEY = cache w !! CACHE_NEWS_KEY ∧
  cache (News_save n w).2 !! CACHE_PACKAGE_KEY = cache w !! CACHE_PACKAGE_KEY.
Proof.
  destruct (Package_save_world p w) as (v & _ & ->).
  destruct (News_save_world n w) as (v' & _ & ->).
  split_and!.
  - apply currentLatest_frame; simpl; [|done|done].
    by rewrite lookup_insert_ne.
  - apply currentLatest_frame; simpl; [|done|done].
    by rewrite lookup_insert_ne.
  - simpl. by rewrite lookup_insert_ne.
  - simpl. by rewrite lookup_insert_ne.
Qed.

(** X6. Coherence is an invariant: from a world where each cache entry
    holds the greatest timestamp of its collection, every sequence of
    saves, reads and clock ticks runs without an exception and ends in
    such a world; a read then answers the greatest timestamp of any
    collection that has records. *)
Theorem coherence_is_invariant (es : list event) (w : World) :
  coherent_packages w → coherent_news w →
  ∃ w', run es w = (Ok (), w') ∧
        coherent_packages w' ∧ coherent_news w' ∧
        ∀ c, timestamps c (db w') ≠ [] →
             ∃ v, (currentLatest c w').1 = Ok (Some v) ∧
                  is_latest id (timestamps c (db w')) v.
Proof.
  intros Hcp Hcn.
  destruct (run_effect es w) as (w' & Hrun & _ & _ & Hcp' & Hcn').
  exists w'. split_and!; [done|by auto|by auto|].
  intros [] Hne; simpl in *.
  - destruct (retrieve_latest_total CACHE_PACKAGE_KEY PackageModel packages
                last_update w') as (r & w'' & Hr & _ & _ & _ & _ & Hv).
    destruct Hv as (v & -> & Hv); [by auto| |].
    { intros Hnil. by rewrite Hnil in Hne. }
    exists v. rewrite retrieve_package_latest_shape, Hr.
    by rewrite is_latest_fmap.
  - destruct (retrieve_latest_total CACHE_NEWS_KEY NewsModel news
                last_modified w') as (r & w'' & Hr & _ & _ & _ & _ & Hv).
    destruct Hv as (v & -> & Hv); [by auto| |].
    { intros Hnil. by rewrite Hnil in Hne. }
    exists v. rewrite retrieve_news_latest_shape, Hr.
    by rewrite is_latest_fmap.
Qed.

Lemma coherence_is_invariant_witness :
  ∃ w', run Sample.events (Sample.world Sample.full_db) = (Ok (), w') ∧
        coherent_packages w' ∧ coherent_news w'.
Proof.
  destruct (coherence_is_invariant Sample.events (Sample.world Sample.full_db))
    as (w' & Hrun & Hcp & Hcn & _).
  - intros v e Hl. vm_compute in Hl. discriminate Hl.
  - intros v e Hl. vm_compute in Hl. discriminate Hl.
  - exists w'. split; [exact Hrun|]. split; [exact Hcp|exact Hcn].
Defined.

(** ** The values of a conditional request *)

Lemma length_append (a b : string) :
  String.length (a +:+ b) = (String.length a + String.length b)%nat.
Proof.
  induction a as [|ch a IH]; [done|].
  change (S (String.length (a +:+ b))
          = S (String.length a + String.length b)). by rewrite IH.
Qed.

Lemma append_inj_l (c a b : string) : a +:+ c = b +:+ c → a = b.
Proof.
  revert b. induction a as [|x a IH]; intros [|y b] Heq; [done| | |].
  - apply (f_equal String.length) in Heq.
    rewrite !length_append in Heq. simpl in Heq. lia.
  - apply (f_equal String.length) in Heq.
    rewrite !length_append in Heq. simpl in Heq. lia.
  - change (String x (a +:+ c) = String y (b +:+ c)) in Heq.
    injection Heq as -> Heq. by rewrite (IH b Heq).
Qed.

(** A read that answers a timestamp leaves it cached and live. *)
Lemma currentLatest_Some_cached c w t w1 :
  currentLatest c w = (Ok (Some t), w1) →
  cache_lookup w1 (cache_key c) = Some t.
Proof.
  intros Hr. destruct (cache_lookup w (cache_key c)) as [v|] eqn:Hc.
  - rewrite (currentLatest_hit c w v Hc) in Hr. by simplify_eq.
  - destruct (timestamps c (db w)) as [|x ts] eqn:Ht.
    + by rewrite (currentLatest_miss_nil c w Hc Ht) in Hr.
    + destruct (currentLatest_miss_Ok c w Hc) as (v & _ & Hv);
        [by rewrite Ht|].
      rewrite Hv in Hr. simplify_eq. apply cache_lookup_Some. simpl.
      exists (clock w + 1800). rewrite lookup_insert_eq. split; [done|lia].
Qed.

(** X7. The ETag and the Last-Modified value computed one after the other
    for a request agree: the ETag is the digest of the string built from
    the very timestamp that the Last-Modified function returns, and one is
    [None] exactly when the other is.  When there is a timestamp, the
    second function is served by the cache: it adds one cache read and no
    query. *)
Theorem etag_and_last_modified_agree
    (md5_hexdigest : string → string)
    (str_kwargs : gmap string string → string)
    (str_datetime : timestamp → string)
    (c : collection) (kwargs : gmap string string) (w : World) :
  ∃ r w1,
    currentLatest c w = (Ok r, w1) ∧
    (e ← computeETag md5_hexdigest str_kwargs str_datetime c kwargs;
     lm ← computeLastModified c;
     mret (e, lm)) w
    = (Ok ((λ t, md5_hexdigest (etag_input str_kwargs str_datetime c kwargs t))
             <$> r, r),
       (currentLatest c w1).2) ∧
    (is_Some r →
     (currentLatest c w1).2 = logged (CacheGet (cache_key c)) w1).
Proof.
  destruct (currentLatest_outcome c w)
    as (r & w1 & Hr & Hdb & Hclock & _ & Hnone).
  exists r, w1. split; [done|].
  assert (computeLastModified c = currentLatest c) as Hlm by by destruct c.
  assert (currentLatest c w1 = (Ok r, (currentLatest c w1).2)) as Hsecond.
  { destruct r as [t|].
    - pose proof (currentLatest_Some_cached c w t w1 Hr) as Hc.
      by rewrite (currentLatest_hit c w1 t Hc).
    - destruct Hnone as [[Hc Ht] _]; [done|].
      rewrite (currentLatest_miss_nil c w Hc Ht) in Hr. simplify_eq.
      by rewrite currentLatest_miss_nil. }
  split.
  - unfold mbind at 1. unfold M_bind.
    rewrite computeETag_currentLatest, Hr, Hlm.
    destruct r as [t|]; unfold mbind, M_bind; by rewrite Hsecond.
  - intros [t ->].
    pose proof (currentLatest_Some_cached c w t w1 Hr) as Hc.
    by rewrite (currentLatest_hit c w1 t Hc).
Qed.

(** X8. At one latest timestamp, two package feeds whose keyword arguments
    render differently hash different strings, so every feed variant has an
    ETag of its own unless MD5 collides; the ETag of the news feed does not
    depend on the keyword arguments at all. *)
Theorem etag_separates_package_feeds
    (md5_hexdigest : string → string)
    (str_kwargs : gmap string string → string)
    (str_datetime : timestamp → string)
    (k1 k2 : gmap string string) (w : World) (t : timestamp) :
  (currentLatest PackageCollection w).1 = Ok (Some t) →
  str_kwargs k1 ≠ str_kwargs k2 →
  let etag := package_etag md5_hexdigest str_kwargs str_datetime in
  let i1 := str_kwargs k1 +:+ str_datetime t in
  let i2 := str_kwargs k2 +:+ str_datetime t in
  (etag k1 w).1 = Ok (Some (md5_hexdigest i1)) ∧
  (etag k2 w).1 = Ok (Some (md5_hexdigest i2)) ∧
  i1 ≠ i2 ∧
  ((md5_hexdigest i1 = md5_hexdigest i2 → i1 = i2) →
   (etag k1 w).1 ≠ (etag k2 w).1) ∧
  news_etag md5_hexdigest str_datetime k1 w
  = news_etag md5_hexdigest str_datetime k2 w.
Proof.
  intros Hr Hne etag i1 i2.
  assert (∀ k, (etag k w).1
               = Ok (Some (md5_hexdigest (str_kwargs k +:+ str_datetime t))))
    as Hetag.
  { intros k. subst etag.
    pose proof (computeETag_currentLatest md5_hexdigest str_kwargs
                  str_datetime PackageCollection k w) as He.
    simpl in He. rewrite He. simpl in Hr.
    destruct retrieve_package_latest as [[[?|]|] ?]; simpl in *;
      by simplify_eq. }
  assert (i1 ≠ i2) as Hi by (intros Heq; by apply append_inj_l in Heq).
  split_and!; try done.
  intros Hnc. rewrite !Hetag. intros [= Heq]. auto.
Qed.

Lemma etag_separates_package_feeds_witness :
  (package_etag Sample.digest Sample.show_kwargs Sample.show_datetime
     ∅ (Sample.world Sample.full_db)).1
  ≠ (package_etag Sample.digest Sample.show_kwargs Sample.show_datetime
       {["arch" := "x86"]} (Sample.world Sample.full_db)).1.
Proof.
  destruct (etag_separates_package_feeds Sample.digest Sample.show_kwargs
              Sample.show_datetime ∅ {["arch" := "x86"]}
              (Sample.world Sample.full_db) 30)
    as (_ & _ & _ & Hne & _).
  - vm_compute. reflexivity.
  - vm_compute. discriminate.
  - apply Hne. intros Heq. vm_compute in Heq. discriminate Heq.
Defined.

(** ** The package feed as a whole *)

(** X9. On every dict that [get_object] returns, [description] and [items]
    succeed and the items can be fetched; [title] succeeds on it except
    when a repository was given without an architecture, where it raises
    [KeyError] on 'arch'. *)
Theorem title_fails_only_without_arch (lower : string → string) (d : DB)
    (archname reponame : string) (obj : gmap string value) :
  get_object d archname reponame = Ok obj →
  (∃ s, description lower obj = Ok s) ∧
  (∃ qs, items obj = Ok (VQuerySet qs) ∧
         package_items d obj = Ok (fetch (packages d) qs)) ∧
  ((∃ s, title lower obj = Ok s) ↔ ¬ (archname = "" ∧ reponame ≠ "")) ∧
  (archname = "" ∧ reponame ≠ "" →
   title lower obj = Raise (KeyError "arch")).
Proof.
  intros (oa & or & Ha & Hr & ->)%get_object_Ok.
  assert (archname = "" ∧ reponame ≠ "" ↔ oa = None ∧ is_Some or) as Hcase.
  { apply resolve_Ok in Ha as [[-> ->]|(Hane & a & -> & _)];
      apply resolve_Ok in Hr as [[-> ->]|(Hrne & r & -> & _)];
      split; intros [? ?]; try done; try (by split; eauto). }
  split_and!.
  - rewrite description_package_obj. eauto.
  - exists (package_query oa or). split.
    + unfold items, getitem, package_obj. by rewrite lookup_insert_eq.
    + apply package_items_obj.
  - rewrite Hcase, title_package_obj.
    destruct oa as [a|], or as [r|]; simpl; split.
    + by intros _ [[=] _].
    + eauto.
    + by intros _ [[=] _].
    + eauto.
    + by intros [s [=]].
    + intros Hn. destruct Hn. eauto.
    + by intros _ [_ [? [=]]].
    + eauto.
  - rewrite Hcase, title_package_obj. intros [-> [r ->]]. done.
Qed.

Lemma title_fails_only_without_arch_witness :
  (∃ s, description ascii_lower (package_obj None (Some Sample.core)) = Ok s) ∧
  ¬ ∃ s, title ascii_lower (package_obj None (Some Sample.core)) = Ok s.
Proof.
  destruct (title_fails_only_without_arch ascii_lower Sample.full_db "" "Core"
              (package_obj None (Some Sample.core)))
    as (Hd & _ & Ht & _); [reflexivity|].
  split; [exact Hd|]. intros Hs. apply Ht in Hs. apply Hs. by split.
Defined.

(** X10. Without names [get_object] makes no lookup and cannot fail,
    whatever the tables of architectures and repositories hold: the feed
    shows the first fifty of all the packages, most recent first. *)
Theorem unfiltered_feed (d : DB) :
  ∃ l, get_object d "" "" = Ok (package_obj None None) ∧
       package_obj None None !! "arch" = None ∧
       package_obj None None !! "repo" = None ∧
       package_items d (package_obj None None) = Ok (take 50 l) ∧
       l ≡ₚ packages d ∧
       StronglySorted (λ p q, last_update q ≤ last_update p) l.
Proof.
  exists (selected (packages d) (package_query None None)). split_and!.
  - by rewrite get_object_resolve, !resolve_empty.
  - by rewrite package_obj_arch.
  - by rewrite package_obj_repo.
  - apply package_items_obj.
  - by apply selected_no_where.
  - apply selected_package_query_sorted.
Qed.

(** X11. With a coherent cache, the Last-Modified value of the package
    feeds is never older than an item shown: it is at least the [pubdate]
    of every item of every feed variant, and for the feed without filters
    it is the [pubdate] of the first item. *)
Theorem last_modified_bounds_items (w : World) (archname reponame : string)
    (obj : gmap string value) (l : list Package) :
  coherent_packages w →
  get_object (db w) archname reponame = Ok obj →
  package_items (db w) obj = Ok l → l ≠ [] →
  ∃ t w', package_last_modified w = (Ok (Some t), w') ∧
          (∀ p, p ∈ l → item_pubdate p ≤ t) ∧
          (archname = "" → reponame = "" →
           ∃ x l', l = x :: l' ∧ item_pubdate x = t).
Proof.
  intros Hcoh (oa & or & Ha & Hr & ->)%get_object_Ok Hitems Hne.
  rewrite package_items_obj in Hitems. injection Hitems as <-.
  set (s := selected (packages (db w)) (package_query oa or)) in *.
  assert (∀ p, p ∈ take 50 s → p ∈ packages (db w)) as Hin.
  { intros p Hp.
    assert (p ∈ s) as Hs.
    { rewrite <- (take_drop 50 s). apply elem_of_app. by left. }
    subst s. by apply elem_of_selected_package_query in Hs as [? _]. }
  assert (packages (db w) ≠ []) as Htable.
  { destruct (take 50 s) as [|x l'] eqn:Hl; [done|].
    intros Hnil. specialize (Hin x (list_elem_of_here _ _)).
    rewrite Hnil in Hin. by apply elem_of_nil in Hin. }
  destruct (retrieve_latest_total CACHE_PACKAGE_KEY PackageModel packages
              last_update w) as (r & w' & Hread & _ & _ & _ & _ & Hv).
  destruct (Hv Hcoh Htable) as (t & -> & [(y & Hy & Hyt) Hle]).
  exists t, w'. split_and!; [done| |].
  - intros p Hp. apply Hle, Hin, Hp.
  - intros -> ->.
    apply resolve_Ok in Ha as [[_ ->]|[? _]]; [|done].
    apply resolve_Ok in Hr as [[_ ->]|[? _]]; [|done].
    pose proof (selected_package_query_sorted (db w) None None) as Hs.
    pose proof (selected_no_where (packages (db w)) (package_query None None)
                  eq_refl) as Hp.
    fold s in Hs, Hp.
    destruct s as [|x s'] eqn:Hs'; [done|].
    exists x, (take 49 s'). split; [done|].
    assert (last_update x ≤ t) as Hxt.
    { apply Hle. rewrite <- Hp. left. }
    assert (t ≤ last_update x) as Htx.
    { rewrite <- Hyt. rewrite <- Hp in Hy.
      apply elem_of_cons in Hy as [->|Hy]; [done|].
      apply StronglySorted_inv in Hs as [_ Hall].
      rewrite Forall_forall in Hall. by apply Hall. }
    unfold item_pubdate. lia.
Qed.

Lemma last_modified_bounds_items_witness :
  ∃ t w', package_last_modified (Sample.world Sample.full_db)
          = (Ok (Some t), w') ∧
          ∀ p, p ∈ [Sample.P2; Sample.P1] → item_pubdate p ≤ t.
Proof.
  destruct (last_modified_bounds_items (Sample.world Sample.full_db) "x86" ""
              (package_obj (Some Sample.x86) None) [Sample.P2; Sample.P1])
    as (t & w' & Hr & Hle & _).
  - intros v e Hl. vm_compute in Hl. discriminate Hl.
  - reflexivity.
  - vm_compute. reflexivity.
  - discriminate.
  - exists t, w'. split; [exact Hr|exact Hle].
Defined.

(** X12. The latest timestamp is kept for the package table as a whole,
    not per feed: the insert of a package more recent than all the others
    moves the Last-Modified value of every package feed to its
    [last_update], also for a feed of an architecture that the package does
    not belong to, whose dict and items are the same as before. *)
Theorem write_outside_feed_moves_last_modified (w : World) (p : Package)
    (archname reponame : string) (obj : gmap string value) :
  pkg_pk p ∉ pkg_pk <$> packages (db w) →
  (∀ q, q ∈ packages (db w) → last_update q < last_update p) →
  archname ≠ "" →
  get_object (db w) archname reponame = Ok obj →
  (∀ a, Arch_objects_get (db w) archname = Ok a → arch_condition a p = false) →
  let w' := (Package_save p w).2 in
  get_object (db w') archname reponame = Ok obj ∧
  package_items (db w') obj = package_items (db w) obj ∧
  (package_last_modified w').1 = Ok (Some (last_update p)).
Proof.
  intros Hfresh Hrecent Hname Hget Hother w'.
  destruct (Package_save_world p w) as (v & Hv & Hsave).
  subst w'. rewrite Hsave. simpl.
  rewrite (upsert_fresh pkg_pk p _ Hfresh) in *.
  assert (v = last_update p) as ->.
  { apply (is_latest_unique last_update (packages (db w) ++ [p])); [done|].
    split.
    - exists p. split; [|done]. apply elem_of_app. right. left.
    - intros y [Hy|Hy]%elem_of_app.
      + specialize (Hrecent y Hy). lia.
      + apply list_elem_of_singleton in Hy as ->. lia. }
  split_and!.
  - exact Hget.
  - apply get_object_Ok in Hget as (oa & or & Ha & Hr & ->).
    apply resolve_Ok in Ha as [[? _]|(_ & a & -> & Ha)]; [done|].
    rewrite !package_items_obj. do 2 f_equal. unfold selected. simpl.
    f_equal. rewrite filter_app.
    rewrite (filter_cons_False _ p []); [by rewrite app_nil_r|].
    simpl. rewrite (Hother a Ha). simpl. tauto.
  - unfold package_last_modified. rewrite retrieve_package_latest_shape.
    rewrite (retrieve_latest_hit _ _ _ _ _ (last_update p)); [done|].
    apply cache_lookup_Some. simpl. exists (clock w + 1800).
    rewrite lookup_insert_eq. split; [done|lia].
Qed.

Lemma write_outside_feed_moves_last_modified_witness :
  let w' := (Package_save Sample.P4 (Sample.world Sample.full_db)).2 in
  package_items (db w') (package_obj (Some Sample.arm) None)
  = package_items Sample.full_db (package_obj (Some Sample.arm) None) ∧
  (package_last_modified w').1 = Ok (Some 50).
Proof.
  destruct (write_outside_feed_moves_last_modified
              (Sample.world Sample.full_db) Sample.P4 "ARM" ""
              (package_obj (Some Sample.arm) None))
    as (_ & Hitems & Hlm).
  - vm_compute. intros Hin.
    repeat (apply elem_of_cons in Hin as [Heq|Hin]; [discriminate Heq|]).
    by apply elem_of_nil in Hin.
  - intros q Hq. simpl in Hq.
    repeat (apply elem_of_cons in Hq as [->|Hq]; [simpl; lia|]).
    by apply elem_of_nil in Hq.
  - discriminate.
  - reflexivity.
  - intros a Ha. vm_compute in Ha. injection Ha as <-. reflexivity.
  - split; [exact Hitems|exact Hlm].
Defined.
